(** * mei_to_midi: sanitation of MEI documents and assembly of a MIDI track

    A shallow embedding of [src/mei_to_midi.py].

    - [remove_lyrics_from_mei] parses an XML text with ElementTree, rewrites
      the [wordpos] attribute of syllables, detaches every [verse] element
      from its parent, repairs measure numbers and serialises the tree again.
      Any exception is caught and the original text is returned.
    - [convert_mei_to_midi] reads a file, sanitises it, has music21 parse it
      and assembles one MIDI track by hand from the flattened score.
    - [process_directory] converts the MEI files of a directory and counts;
      [main] dispatches on the parsed arguments.

    ElementTree elements are Python objects: the code compares them by
    identity ([verse in list(ancestor)], [parent.remove(verse)],
    [sibling_measures.index(measure)]).  An element therefore carries its
    identity [eid]; a tree that comes out of the parser has pairwise distinct
    identities ([wf]).  A loop variable that holds an element is modelled by
    the identity of that element, and reading or writing through it is a
    lookup or an update of the tree below [root]. *)

From Stdlib Require Import List String Ascii Bool Arith Lia.
From Stdlib Require Import DecimalString DecimalNat.
Import ListNotations.
Open Scope string_scope.
Open Scope list_scope.

Set Implicit Arguments.

(** ** Exceptions *)

Inductive exn : Type :=
| ParseError            (* xml.etree.ElementTree.ParseError *)
| ValueError
| IndexError
| TypeError
| OSError
| OtherError (msg : string).

Inductive result (A : Type) : Type :=
| Ok (a : A)
| Raise (e : exn).

Arguments Ok {A} a.
Arguments Raise {A} e.

Definition bind {A B : Type} (m : result A) (k : A -> result B) : result B :=
  match m with
  | Ok a => k a
  | Raise e => Raise e
  end.

Notation "x <- m ;; k" := (bind m (fun x => k))
  (at level 61, m at next level, right associativity).

(** [try: body except Exception: handler] *)
Definition try_except {A : Type} (body : result A) (handler : exn -> A) : A :=
  match body with
  | Ok a => a
  | Raise e => handler e
  end.

(** ** Elements *)

Definition attrs : Type := list (string * string).

Local Unset Elimination Schemes.

Inductive Element : Type :=
  Elem (eid : nat) (tag : string) (attrib : attrs) (text tail : string)
       (children : list Element).

Local Set Elimination Schemes.

Definition eid (e : Element) : nat :=
  match e with Elem i _ _ _ _ _ => i end.
Definition tag (e : Element) : string :=
  match e with Elem _ t _ _ _ _ => t end.
Definition attrib (e : Element) : attrs :=
  match e with Elem _ _ a _ _ _ => a end.
Definition text (e : Element) : string :=
  match e with Elem _ _ _ tx _ _ => tx end.
Definition tail (e : Element) : string :=
  match e with Elem _ _ _ _ tl _ => tl end.
Definition children (e : Element) : list Element :=
  match e with Elem _ _ _ _ _ cs => cs end.

(** [elem.get(k)]: [None] when the key is absent. *)
Fixpoint attr_get (k : string) (a : attrs) : option string :=
  match a with
  | [] => None
  | (k', v) :: a' => if String.eqb k' k then Some v else attr_get k a'
  end.

(** [elem.set(k, v)]: a dict assignment; an existing key keeps its place, a
    new key goes last. *)
Fixpoint attr_set (k v : string) (a : attrs) : attrs :=
  match a with
  | [] => [(k, v)]
  | (k', v') :: a' =>
      if String.eqb k' k then (k, v) :: a' else (k', v') :: attr_set k v a'
  end.

(** [root.iter()]: the element and all its descendants in document order. *)
Fixpoint iter (e : Element) : list Element :=
  match e with
  | Elem _ _ _ _ _ cs => e :: flat_map iter cs
  end.

Definition descendants (e : Element) : list Element :=
  flat_map iter (children e).

(** The identities below an element, the element included. *)
Definition ids (e : Element) : list nat := map eid (iter e).

(** Distinct objects: what [ET.fromstring] builds. *)
Definition wf (e : Element) : Prop := NoDup (ids e).

(** ** Qualified names *)

Definition mei_ns : string := "http://www.music-encoding.org/ns/mei".

(** [mei:local] under [ns = {'mei': mei_ns}] is the tag [{uri}local]. *)
Definition qname (local : string) : string :=
  ("{" ++ mei_ns ++ "}" ++ local)%string.

Definition mei_syl : string := qname "syl".
Definition mei_verse : string := qname "verse".
Definition mei_measure : string := qname "measure".

Definition has_tag (t : string) (e : Element) : bool := String.eqb (tag e) t.

(** [root.findall('.//mei:X', ns)]: the descendants with that tag, in
    document order, the context element itself excluded. *)
Definition findall_desc (t : string) (root : Element) : list Element :=
  filter (has_tag t) (descendants root).

(** [parent.findall('mei:X', ns)]: the direct children with that tag. *)
Definition findall_child (t : string) (parent : Element) : list Element :=
  filter (has_tag t) (children parent).

(** ** Access through an object reference *)

(** The element with identity [x] as it currently is below [root]. *)
Definition node_at (x : nat) (root : Element) : option Element :=
  find (fun e => Nat.eqb (eid e) x) (iter root).

(** A write to the attributes of the object [x]. *)
Fixpoint modify_attrib_at (x : nat) (f : attrs -> attrs) (e : Element)
  : Element :=
  match e with
  | Elem i t a tx tl cs =>
      Elem i t (if Nat.eqb i x then f a else a) tx tl
           (map (modify_attrib_at x f) cs)
  end.

(** A write to the child list of the object [p]. *)
Fixpoint set_children_at (p : nat) (cs' : list Element) (e : Element)
  : Element :=
  match e with
  | Elem i t a tx tl cs =>
      if Nat.eqb i p then Elem i t a tx tl cs'
      else Elem i t a tx tl (map (set_children_at p cs') cs)
  end.

(** [x in list(ancestor)] *)
Definition has_child (x : nat) (ancestor : Element) : bool :=
  existsb (fun c => Nat.eqb (eid c) x) (children ancestor).

(** The parent search of lines 39-43 and 57-61:
    the first element of [root.iter()] that has [x] among its children. *)
Definition find_parent (root : Element) (x : nat) : option Element :=
  find (has_child x) (iter root).

(** [list.remove]: drops the first occurrence, [ValueError] when there is
    none. *)
Fixpoint list_remove (x : nat) (cs : list Element) : result (list Element) :=
  match cs with
  | [] => Raise ValueError
  | c :: cs' =>
      if Nat.eqb (eid c) x then Ok cs'
      else cs'' <- list_remove x cs' ;; Ok (c :: cs'')
  end.

(** [list.index]: position of the first occurrence, [ValueError] when there
    is none. *)
Fixpoint list_index (x : nat) (cs : list Element) : result nat :=
  match cs with
  | [] => Raise ValueError
  | c :: cs' =>
      if Nat.eqb (eid c) x then Ok 0
      else k <- list_index x cs' ;; Ok (S k)
  end.

(** [str(k)] for a non-negative integer. *)
Definition str (k : nat) : string := NilEmpty.string_of_uint (Nat.to_uint k).

(** Python truthiness of a string. *)
Definition truthy (s : string) : bool := negb (String.eqb s "").

(** A loop [for x in xs: body] whose body may raise. *)
Fixpoint for_each {S X : Type} (body : S -> X -> result S) (xs : list X)
         (s : S) : result S :=
  match xs with
  | [] => Ok s
  | x :: xs' => s' <- body s x ;; for_each body xs' s'
  end.

(** ** The three passes of [remove_lyrics_from_mei] *)

(** Lines 28-34. *)
Definition normalize_wordpos (a : attrs) : attrs :=
  match attr_get "wordpos" a with
  | Some w =>
      if existsb (String.eqb w) ["s"; "i"; "m"; "t"] then a
      else if String.eqb w "u" then attr_set "wordpos" "i" a
      else attr_set "wordpos" "s" a
  | None => attr_set "wordpos" "s" a
  end.

Definition syl_step (root : Element) (syl : nat) : result Element :=
  Ok (modify_attrib_at syl normalize_wordpos root).

(** Lines 27-34. *)
Definition syl_pass (root : Element) : result Element :=
  for_each syl_step (map eid (findall_desc mei_syl root)) root.

(** Lines 38-45. *)
Definition verse_step (root : Element) (verse : nat) : result Element :=
  match find_parent root verse with
  | None => Ok root
  | Some parent_note =>
      cs' <- list_remove verse (children parent_note) ;;
      Ok (set_children_at (eid parent_note) cs' root)
  end.

(** Lines 37-45. *)
Definition verse_pass (root : Element) : result Element :=
  for_each verse_step (map eid (findall_desc mei_verse root)) root.

Section Sanitizer.

(** [int_ok s]: [int(s)] returns, it does not raise [ValueError]. *)
Variable int_ok : string -> bool.

(** Lines 49-65.  A measure that is not below [root] has no parent there,
    and the body then writes nothing. *)
Definition measure_step (root : Element) (measure : nat) : result Element :=
  match node_at measure root with
  | None => Ok root
  | Some m =>
      match attr_get "n" (attrib m) with
      | None => Ok root
      | Some measure_num =>
          if truthy measure_num then
            if int_ok measure_num then Ok root
            else
              match find_parent root measure with
              | None => Ok root
              | Some parent =>
                  measure_index <-
                    list_index measure (findall_child mei_measure parent) ;;
                  Ok (modify_attrib_at measure
                        (attr_set "n" (str measure_index)) root)
              end
          else Ok root
      end
  end.

(** Lines 48-65. *)
Definition measure_pass (root : Element) : result Element :=
  for_each measure_step (map eid (findall_desc mei_measure root)) root.

(** Lines 27-65: the mutation of the parsed tree. *)
Definition sanitize_tree (root : Element) : result Element :=
  r1 <- syl_pass root ;;
  r2 <- verse_pass r1 ;;
  measure_pass r2.

End Sanitizer.

(** ** What the passes compute

    Closed forms of the three loops, by recursion on the tree.  They use no
    identity; the theorems below show that on a tree of distinct objects the
    loops compute exactly these. *)

Definition with_attrib (f : attrs -> attrs) (e : Element) : Element :=
  match e with
  | Elem i t a tx tl cs => Elem i t (f a) tx tl cs
  end.

(** Every syllable at or below [e] has its marker normalised. *)
Fixpoint norm_syl (e : Element) : Element :=
  match e with
  | Elem i t a tx tl cs =>
      Elem i t (if String.eqb t mei_syl then normalize_wordpos a else a)
           tx tl (map norm_syl cs)
  end.

(** Every syllable strictly below [e]. *)
Definition norm_below (e : Element) : Element :=
  match e with
  | Elem i t a tx tl cs => Elem i t a tx tl (map norm_syl cs)
  end.

(** Every child that is a verse is dropped, at every level. *)
Fixpoint prune (e : Element) : Element :=
  match e with
  | Elem i t a tx tl cs =>
      Elem i t a tx tl
           ((fix go (l : list Element) : list Element :=
               match l with
               | [] => []
               | c :: l' =>
                   if has_tag mei_verse c then go l' else prune c :: go l'
               end) cs)
  end.

(** Identities held by the loop variable of a [findall] loop. *)
Definition refs (t : string) (root : Element) : list nat :=
  map eid (findall_desc t root).

Definition mem (x : nat) (l : list nat) : bool := existsb (Nat.eqb x) l.

(** All attribute writes of a loop at once: node [i] gets [h i]. *)
Fixpoint map_attrib_by_id (h : nat -> attrs -> attrs) (e : Element)
  : Element :=
  match e with
  | Elem i t a tx tl cs =>
      Elem i t (h i a) tx tl (map (map_attrib_by_id h) cs)
  end.

(** All removals of a loop at once: children whose identity satisfies [P]
    are dropped, at every level. *)
Fixpoint remove_set (P : nat -> bool) (e : Element) : Element :=
  match e with
  | Elem i t a tx tl cs =>
      Elem i t a tx tl
           ((fix go (l : list Element) : list Element :=
               match l with
               | [] => []
               | c :: l' =>
                   if P (eid c) then go l' else remove_set P c :: go l'
               end) cs)
  end.

(** The document with identities forgotten. *)
Fixpoint anon (e : Element) : Element :=
  match e with
  | Elem _ t a tx tl cs => Elem 0 t a tx tl (map anon cs)
  end.

(** The document with attributes forgotten: objects, tags, text and
    nesting. *)
Fixpoint skeleton (e : Element) : Element :=
  match e with
  | Elem i t _ tx tl cs => Elem i t [] tx tl (map skeleton cs)
  end.

Section SanitizerSpec.

Variable int_ok : string -> bool.

(** The repair of line 65 for a measure at position [k] among its sibling
    measures. *)
Definition repair_n (k : nat) (a : attrs) : attrs :=
  match attr_get "n" a with
  | Some num =>
      if truthy num && negb (int_ok num) then attr_set "n" (str k) a else a
  | None => a
  end.

(** Every measure strictly below [e] is repaired with its position among
    the measures of its own parent. *)
Fixpoint repair_below (e : Element) : Element :=
  match e with
  | Elem i t a tx tl cs =>
      Elem i t a tx tl
           ((fix go (k : nat) (l : list Element) : list Element :=
               match l with
               | [] => []
               | c :: l' =>
                   if has_tag mei_measure c
                   then with_attrib (repair_n k) (repair_below c)
                                    :: go (S k) l'
                   else repair_below c :: go k l'
               end) 0 cs)
  end.

Fixpoint repair_children (k : nat) (l : list Element) : list Element :=
  match l with
  | [] => []
  | c :: l' =>
      if has_tag mei_measure c
      then with_attrib (repair_n k) (repair_below c)
                       :: repair_children (S k) l'
      else repair_below c :: repair_children k l'
  end.

Definition sanitized (root : Element) : Element :=
  repair_below (prune (norm_below root)).

(** The position that line 64 computes for the object [x], when the parent
    search and [index] both succeed. *)
Definition sibling_index (root : Element) (x : nat) : option nat :=
  match find_parent root x with
  | None => None
  | Some p =>
      match list_index x (findall_child mei_measure p) with
      | Ok k => Some k
      | Raise _ => None
      end
  end.

Definition repair_at (o : option nat) (a : attrs) : attrs :=
  match o with
  | Some k => repair_n k a
  | None => a
  end.

End SanitizerSpec.

(** ** Induction on elements *)

Fixpoint Element_ind (P : Element -> Prop)
  (H : forall i t a tx tl cs, Forall P cs -> P (Elem i t a tx tl cs))
  (e : Element) : P e :=
  match e with
  | Elem i t a tx tl cs =>
      H i t a tx tl cs
        ((fix go (l : list Element) : Forall P l :=
            match l with
            | [] => @Forall_nil _ P
            | c :: l' => @Forall_cons _ P c l' (@Element_ind P H c) (go l')
            end) cs)
  end.

(** One removal seen from the root: the children with identity [x] are
    dropped. *)
Definition remove_id (x : nat) : Element -> Element :=
  remove_set (fun i => Nat.eqb i x).

(** The writes of the syllable loop, by object. *)
Definition syl_write (root : Element) (i : nat) (a : attrs) : attrs :=
  if mem i (refs mei_syl root) then normalize_wordpos a else a.

(** One of the four position codes that line 29 accepts. *)
Definition wordpos_ok (a : attrs) : bool :=
  match attr_get "wordpos" a with
  | Some w => existsb (String.eqb w) ["s"; "i"; "m"; "t"]
  | None => false
  end.

Section SanitizerOutcome.

Variable int_ok : string -> bool.

(** The writes of the measure loop, by object. *)
Definition measure_write (root : Element) (i : nat) (a : attrs) : attrs :=
  if mem i (refs mei_measure root)
  then repair_at int_ok (sibling_index root i) a
  else a.

(** What the measure loop leaves behind: no number, an empty one, or one
    that [int] accepts. *)
Definition number_ok (a : attrs) : bool :=
  match attr_get "n" a with
  | None => true
  | Some num => negb (truthy num) || int_ok num
  end.

(** The attributes of an element after sanitation, for an element that is
    at position [k] among the measures of its parent. *)
Definition final_attrib (k : nat) (c : Element) : attrs :=
  if has_tag mei_measure c then repair_n int_ok k (attrib c)
  else if has_tag mei_syl c then normalize_wordpos (attrib c)
  else attrib c.

End SanitizerOutcome.


(** ** [remove_lyrics_from_mei] *)

(** What goes to standard output. *)
Inductive log_line : Type :=
| LogText (s : string)
| LogError (prefix : string) (e : exn).  (* the message and the traceback *)

Section RemoveLyrics.

Variable int_ok : string -> bool.

(** [ET.fromstring] and [ET.tostring(root, encoding='utf-8').decode('utf-8')] *)
Variable fromstring : string -> result Element.
Variable tostring : Element -> result string.

(** Lines 20-68: the body of the [try]. *)
Definition remove_lyrics_body (mei_data : string) : result string :=
  root <- fromstring mei_data ;;
  root' <- sanitize_tree int_ok root ;;
  tostring root'.

(** Lines 9-73.  The second component is what the call prints. *)
Definition remove_lyrics_from_mei (mei_data : string)
  : string * list log_line :=
  try_except
    (s <- remove_lyrics_body mei_data ;; Ok (s, []))
    (fun e => (mei_data, [LogError "Error processing MEI data" e])).

End RemoveLyrics.

(** ** A model of [int] on text

    [int(s)] for a string of code points below 256: white space around an
    optional sign and decimal digits, with single underscores between
    digits.  The limit of Python 3.11 on the number of digits (4300 by
    default) is not modelled. *)

Definition is_space (c : ascii) : bool :=
  let n := nat_of_ascii c in
  (((9 <=? n) && (n <=? 13)) || (n =? 32) || (n =? 133) || (n =? 160))%nat.

Definition is_digit (c : ascii) : bool :=
  let n := nat_of_ascii c in ((48 <=? n) && (n <=? 57))%nat.

Definition is_sign (c : ascii) : bool :=
  let n := nat_of_ascii c in ((n =? 43) || (n =? 45))%nat.

Definition is_underscore (c : ascii) : bool := (nat_of_ascii c =? 95)%nat.

Inductive int_state : Type :=
| IntStart | IntSign | IntDigit | IntUnderscore | IntTrail.

Fixpoint int_scan (st : int_state) (s : string) : bool :=
  match s with
  | EmptyString =>
      match st with
      | IntDigit | IntTrail => true
      | _ => false
      end
  | String c s' =>
      match st with
      | IntStart =>
          if is_space c then int_scan IntStart s'
          else if is_sign c then int_scan IntSign s'
          else if is_digit c then int_scan IntDigit s'
          else false
      | IntSign => if is_digit c then int_scan IntDigit s' else false
      | IntDigit =>
          if is_digit c then int_scan IntDigit s'
          else if is_underscore c then int_scan IntUnderscore s'
          else if is_space c then int_scan IntTrail s'
          else false
      | IntUnderscore => if is_digit c then int_scan IntDigit s' else false
      | IntTrail => if is_space c then int_scan IntTrail s' else false
      end
  end.

Definition py_int_ok (s : string) : bool := int_scan IntStart s.

(** ** Sample documents *)

Definition E (i : nat) (local : string) (a : attrs) (cs : list Element)
  : Element := Elem i (qname local) a "" "" cs.

(** A section with four measures and a staff definition between them; two
    verses on one note, a verse inside a verse, and a syllable outside any
    verse. *)
Definition sample_m1 : Element :=
  E 2 "measure" [("n", "1")]
    [E 3 "note" [("pname", "c")]
       [E 4 "verse" [("n", "1")]
          [E 5 "syl" [("wordpos", "u")] [];
           E 6 "verse" [] []];
        E 7 "verse" [("n", "2")] [E 8 "syl" [] []]]].

Definition sample_staff : Element := E 9 "staffDef" [] [].

Definition sample_m2 : Element := E 10 "measure" [("n", "")] [].

Definition sample_m3 : Element :=
  E 11 "measure" [("n", "abc"); ("xml:id", "m3")]
    [E 12 "syl" [("wordpos", "u")] [];
     E 13 "syl" [("wordpos", "t")] []].

Definition sample_m4 : Element := E 14 "measure" [] [].

Definition sample_doc : Element :=
  E 0 "mei" []
    [E 1 "section" []
       [sample_m1; sample_staff; sample_m2; sample_m3; sample_m4]].

(** What the sanitizer makes of it. *)
Definition sample_m1_out : Element :=
  E 2 "measure" [("n", "1")] [E 3 "note" [("pname", "c")] []].

Definition sample_syl_out : Element := E 12 "syl" [("wordpos", "i")] [].

Definition sample_m3_out : Element :=
  E 11 "measure" [("n", "2"); ("xml:id", "m3")]
    [sample_syl_out; E 13 "syl" [("wordpos", "t")] []].

Definition sample_section_out : Element :=
  E 1 "section" []
    [sample_m1_out; sample_staff; sample_m2; sample_m3_out; sample_m4].

Definition sample_out : Element := E 0 "mei" [] [sample_section_out].

(** A document whose root element is a verse. *)
Definition root_verse_doc : Element := E 0 "verse" [] [E 1 "syl" [] []].

(** A document whose root element is a syllable. *)
Definition root_syl_doc : Element := E 0 "syl" [("wordpos", "u")] [].

(** A measure with an empty number. *)
Definition empty_number_doc : Element :=
  E 0 "section" [] [E 1 "measure" [("n", "")] []].

(** No verse anywhere, one measure with a number that is not one. *)
Definition no_lyrics_doc : Element :=
  E 0 "section" [] [E 1 "measure" [("n", "abc")] []].

Definition no_lyrics_out : Element :=
  E 0 "section" [] [E 1 "measure" [("n", "0")] []].


(** ** The MIDI track of [convert_mei_to_midi] *)

(** The fields of a music21 [MidiEvent] that the code sets or reads. *)
Record MidiEvent : Type :=
  mkMidiEvent { ev_track : nat; ev_time : nat; ev_type : string;
                ev_data : string }.

(** [l[0]] *)
Definition index0 {A : Type} (l : list A) : result A :=
  match l with
  | [] => Raise IndexError
  | x :: _ => Ok x
  end.

(** [midi.MidiEvent(track=..., time=..., type=..., data=...)], the call of
    line 117.  The constructor of music21 is
    [MidiEvent(track, type, time, channel)]: it has no keyword [data] (the
    data of an event is assigned after the event is built), so the call
    raises [TypeError] once its arguments are evaluated. *)
Definition new_MidiEvent (track time : nat) (type data : string)
  : result MidiEvent := Raise TypeError.

Section Assembler.

(** The tempo markings and the notes, chords and rests of music21. *)
Variables Tempo Note : Type.

(** An object of the flattened score. *)
Inductive ScoreObject : Type :=
| TempoIndication (t : Tempo)
| GeneralNote (n : Note) (isRest : bool)
| OtherObject.

(** [score.flat]: the objects of the score in time order, the nesting in
    parts, measures and voices forgotten. *)
Definition Score : Type := list ScoreObject.

(** [midi.translate.tempoToMidiEvents] and [midi.translate.noteToMidiEvents] *)
Variable tempoToMidiEvents : Tempo -> result (list MidiEvent).
Variable noteToMidiEvents : Note -> result (list MidiEvent).

(** [score.flat.getElementsByClass('TempoIndication')] *)
Fixpoint tempo_indications (score : Score) : list Tempo :=
  match score with
  | [] => []
  | TempoIndication t :: score' => t :: tempo_indications score'
  | _ :: score' => tempo_indications score'
  end.

(** [score.flat.notesAndRests], each object with its [isRest]. *)
Fixpoint notesAndRests (score : Score) : list (Note * bool) :=
  match score with
  | [] => []
  | GeneralNote n r :: score' => (n, r) :: notesAndRests score'
  | _ :: score' => notesAndRests score'
  end.

(** Lines 117-122.  The argument [tempoToMidiEvents(t)[0].data] is
    evaluated first, then the constructor is called. *)
Definition tempo_step (events : list MidiEvent) (t : Tempo)
  : result (list MidiEvent) :=
  translated <- tempoToMidiEvents t ;;
  first <- index0 translated ;;
  ev <- new_MidiEvent 0 0 "SET_TEMPO" (ev_data first) ;;
  Ok (events ++ [ev]).

(** Lines 127-132. *)
Definition note_step (events : list MidiEvent) (n : Note * bool)
  : result (list MidiEvent) :=
  if snd n then Ok events
  else
    translated <- noteToMidiEvents (fst n) ;;
    for_each (fun evs midi_note => Ok (evs ++ [midi_note])) translated events.

(** Lines 111-132: the events of [mt] when the two loops are through. *)
Definition assemble_track (score : Score) : result (list MidiEvent) :=
  events <- for_each tempo_step (tempo_indications score) [] ;;
  for_each note_step (notesAndRests score) events.

(** The notes and chords that are not rests, in time order. *)
Definition sounding_notes (score : Score) : list Note :=
  map fst (filter (fun n => negb (snd n)) (notesAndRests score)).

End Assembler.

Arguments OtherObject {Tempo Note}.
Arguments TempoIndication {Tempo Note} t.
Arguments GeneralNote {Tempo Note} n isRest.

(** ** Files and standard output

    [files w p = Some d]: [p] is a regular file whose text is [d].  The
    file system is an ideal one: a file that exists can be read, and a file
    can be opened for writing at any path.  In the code a failing [open]
    ends the run in a handler, with the result [None]; what is proved of a
    run that returns a path is therefore stated on the value returned and
    the lines printed, not on conditions for success. *)

Record World : Type :=
  mkWorld { files : string -> option string; stdout : list log_line }.

Definition print (l : log_line) (w : World) : World :=
  mkWorld (files w) (stdout w ++ [l]).

Definition write_file (path content : string) (w : World) : World :=
  mkWorld (fun q => if String.eqb q path then Some content else files w q)
          (stdout w).

Definition remove_file (path : string) (w : World) : World :=
  mkWorld (fun q => if String.eqb q path then None else files w q)
          (stdout w).

Section Convert.

Variable int_ok : string -> bool.
Variable fromstring : string -> result Element.
Variable tostring : Element -> result string.
Variables Tempo Note : Type.
Variable tempoToMidiEvents : Tempo -> result (list MidiEvent).
Variable noteToMidiEvents : Note -> result (list MidiEvent).

(** [converter.parse(temp_file, format='mei')], on the text of the file. *)
Variable parse_mei : string -> result (Score Tempo Note).

(** [mf.write()]: the bytes of the file for the events of the track. *)
Variable write_midi : list MidiEvent -> result string.

(** [os.path.splitext(path)[0]] *)
Variable splitext_root : string -> string.

Definition temp_file_of (input_file : string) : string :=
  (input_file ++ ".temp.mei")%string.

(** Lines 110-145. *)
Definition midi_creation (output_file : string) (score : Score Tempo Note)
           (w : World) : option string * World :=
  match assemble_track tempoToMidiEvents noteToMidiEvents score with
  | Raise e => (None, print (LogError "MIDI creation error" e) w)
  | Ok events =>
      let w1 := write_file output_file "" w in
      match write_midi events with
      | Raise e => (None, print (LogError "MIDI creation error" e) w1)
      | Ok bytes =>
          (Some output_file,
           print (LogText ("Successfully converted to " ++ output_file))
                 (write_file output_file bytes w1))
      end
  end.

(** Lines 75-161. *)
Definition convert_mei_to_midi (input_file : string)
           (output_file : option string) (w : World)
  : option string * World :=
  let output_file :=
    match output_file with
    | None => (splitext_root input_file ++ ".mid")%string
    | Some o => o
    end in
  let w := print (LogText ("Converting " ++ input_file ++ " to MIDI...")) w in
  match files w input_file with
  | None =>
      (None, print (LogError ("Error processing " ++ input_file) OSError) w)
  | Some mei_data =>
      let (mei_data_no_lyrics, printed) :=
        remove_lyrics_from_mei int_ok fromstring tostring mei_data in
      let w := mkWorld (files w) (stdout w ++ printed) in
      let temp_file := temp_file_of input_file in
      let w := write_file temp_file mei_data_no_lyrics w in
      let (result, w) :=
        match
          match files w temp_file with
          | Some text => parse_mei text
          | None => Raise OSError
          end
        with
        | Raise e => (None, print (LogError "Music21 conversion error" e) w)
        | Ok score => midi_creation output_file score w
        end in
      let w :=
        match files w temp_file with
        | Some _ => remove_file temp_file w
        | None => w
        end in
      (result, w)
  end.

End Convert.

(** ** A sample score *)

Definition note_on (pitch : string) : MidiEvent :=
  mkMidiEvent 0 0 "NOTE_ON" pitch.

Definition note_off (pitch : string) : MidiEvent :=
  mkMidiEvent 0 1024 "NOTE_OFF" pitch.

(** A tempo marking is its payload here, a note is its pitch. *)
Definition sample_tempo_events (t : string) : result (list MidiEvent) :=
  if String.eqb t "" then Ok []
  else Ok [mkMidiEvent 0 0 "DeltaTime" t; mkMidiEvent 0 0 "SET_TEMPO" "x"].

Definition sample_note_events (n : string) : result (list MidiEvent) :=
  Ok [note_on n; note_off n].

(** A tempo, a note, a rest, a second tempo and a second note. *)
Definition sample_score : Score string string :=
  [TempoIndication "120"; OtherObject; GeneralNote "c4" false;
   GeneralNote "r" true; TempoIndication "90"; GeneralNote "e4" false].

(** A score whose second tempo marking translates to no event. *)
Definition silent_tempo_score : Score string string :=
  [TempoIndication "120"; GeneralNote "c4" false; TempoIndication ""].

Definition sample_fromstring (s : string) : result Element :=
  if String.eqb s "<mei/>" then Ok (E 0 "mei" [] []) else Raise ParseError.

Definition sample_tostring (e : Element) : result string := Ok "<mei />".

Definition sample_parse_mei (s : string)
  : result (Score string string) :=
  if String.eqb s "<mei />" then Ok silent_tempo_score
  else Raise (OtherError "not MEI").

Definition sample_write_midi (evs : list MidiEvent) : result string :=
  Ok "MThd".

Definition sample_splitext_root (p : string) : string := "in".

Definition sample_world : World :=
  mkWorld (fun q => if String.eqb q "in.mei" then Some "<mei/>" else None) [].


(** ** [process_directory] and [main] *)

(** [c.lower()] for a code point below 256: the letters A-Z and the capital
    letters of Latin-1 have their lower case 32 places up. *)
Definition lower_char (c : ascii) : ascii :=
  let n := nat_of_ascii c in
  if (((65 <=? n) && (n <=? 90)) ||
      ((192 <=? n) && (n <=? 222) && negb (n =? 215)))%nat
  then ascii_of_nat (n + 32)
  else c.

(** [s.lower()] *)
Fixpoint lower (s : string) : string :=
  match s with
  | EmptyString => EmptyString
  | String c s' => String (lower_char c) (lower s')
  end.

(** [s.endswith(suffix)]: [s] from some position on is [suffix]. *)
Fixpoint endswith (s suffix : string) : bool :=
  String.eqb s suffix ||
  match s with
  | EmptyString => false
  | String _ s' => endswith s' suffix
  end.

(** Lines 187 and 217: [name.lower().endswith('.mei')] *)
Definition is_mei (name : string) : bool := endswith (lower name) ".mei".

(** Python truthiness of a string that may be [None]. *)
Definition truthy_opt (o : option string) : bool :=
  match o with
  | Some s => truthy s
  | None => false
  end.



Section Directory.

Variable int_ok : string -> bool.
Variable fromstring : string -> result Element.
Variable tostring : Element -> result string.
Variables Tempo Note : Type.
Variable tempoToMidiEvents : Tempo -> result (list MidiEvent).
Variable noteToMidiEvents : Note -> result (list MidiEvent).
Variable parse_mei : string -> result (Score Tempo Note).
Variable write_midi : list MidiEvent -> result string.
Variable splitext_root : string -> string.

(** [os.path.isdir], [os.path.exists], [os.makedirs], [os.listdir] and
    [os.path.join].  The directories are those of the moment of the call:
    they are looked at before the first file is converted, and [World] holds
    the regular files only. *)
Variable isdir : string -> bool.
Variable path_exists : string -> bool.
Variable makedirs : string -> result unit.
Variable listdir : string -> result (list string).
Variable path_join : string -> string -> string.

(** Lines 190-194. *)
Definition output_path_of (output_dir : option string) (filename : string)
  : option string :=
  match output_dir with
  | Some d =>
      if truthy d
      then Some (path_join d (splitext_root filename ++ ".mid")%string)
      else None
  | None => None
  end.

(** Lines 187-200: the counters and the files after one name of the
    listing. *)
Definition directory_step (input_dir : string) (output_dir : option string)
           (st : nat * nat * World) (filename : string) : nat * nat * World :=
  let '(success_count, failed_count, w) := st in
  if is_mei filename then
    let input_path := path_join input_dir filename in
    let (result, w') :=
      convert_mei_to_midi int_ok fromstring tostring tempoToMidiEvents
        noteToMidiEvents parse_mei write_midi splitext_root
        input_path (output_path_of output_dir filename) w in
    if truthy_opt result then (S success_count, failed_count, w')
    else (success_count, S failed_count, w')
  else st.

(** Lines 163-203. *)
Definition process_directory (input_dir : string)
           (output_dir : option string) (w : World) : result (nat * World) :=
  if negb (isdir input_dir) then
    Ok (0, print (LogText ("Error: " ++ input_dir ++
                           " is not a valid directory")) w)
  else
    _ <- match output_dir with
         | Some d =>
             if truthy d && negb (path_exists d) then makedirs d else Ok tt
         | None => Ok tt
         end ;;
    names <- listdir input_dir ;;
    let '(success_count, failed_count, w') :=
      fold_left (directory_step input_dir output_dir) names (0, 0, w) in
    Ok (success_count,
        print (LogText ("Conversion complete: " ++ str success_count ++
                        " succeeded, " ++ str failed_count ++ " failed"))
              w').


End Directory.

(** ** A sample directory *)

Definition sample_parse_ok (s : string) : result (Score string string) :=
  if String.eqb s "<mei />" then Ok sample_score
  else Raise (OtherError "not MEI").

(** The name without its last four characters. *)
Definition sample_stem (p : string) : string :=
  substring 0 (String.length p - 4) p.

Definition sample_isdir (p : string) : bool := String.eqb p "songs".

Definition sample_listdir (p : string) : result (list string) :=
  if String.eqb p "songs" then Ok ["a.mei"; "notes.txt"; "B.MEI"]
  else Raise OSError.

Definition sample_join (d name : string) : string :=
  (d ++ "/" ++ name)%string.

Definition sample_dir_world : World :=
  mkWorld (fun q => if String.eqb q "songs/a.mei" then Some "<mei/>"
                    else if String.eqb q "songs/B.MEI" then Some "<mei"
                    else if String.eqb q "songs/keep.txt" then Some "kept"
                    else None) [].


(** ** The path that [convert_mei_to_midi] writes the track to *)

(** Lines 88-89. *)
Definition target_of (splitext_root : string -> string)
           (input_file : string) (output_file : option string) : string :=
  match output_file with
  | None => (splitext_root input_file ++ ".mid")%string
  | Some o => o
  end.

Definition sample_full_world : World :=
  mkWorld (fun q => if String.eqb q "in.mei" then Some "<mei/>"
                    else if String.eqb q "in.mid" then Some "old track"
                    else if String.eqb q "in.mei.temp.mei" then Some "mine"
                    else if String.eqb q "bad.mei" then Some "<mei"
                    else None) [].


Definition sample_exists (p : string) : bool := false.

Definition sample_makedirs (p : string) : result unit := Ok tt.


(** The sample translators around a parser and a writer. *)
Definition sample_convert
           (parse_mei : string -> result (Score string string))
           (write_midi : list MidiEvent -> result string)
  : string -> option string -> World -> option string * World :=
  convert_mei_to_midi py_int_ok sample_fromstring sample_tostring
    sample_tempo_events sample_note_events parse_mei write_midi
    sample_splitext_root.

Definition sample_process_directory
  : string -> option string -> World -> result (nat * World) :=
  process_directory py_int_ok sample_fromstring sample_tostring
    sample_tempo_events sample_note_events sample_parse_ok
    sample_write_midi sample_stem sample_isdir sample_exists
    sample_makedirs sample_listdir sample_join.


(** ** Samples for the conversion of a score without tempo markings *)

(** Two notes, a rest and an object that is neither. *)
Definition sample_notes_score : Score string string :=
  [GeneralNote "c4" false; GeneralNote "r" true; OtherObject;
   GeneralNote "e4" false].

Definition sample_parse_notes (s : string) : result (Score string string) :=
  if String.eqb s "<mei />" then Ok sample_notes_score
  else Raise (OtherError "not MEI").

(** A translator that rejects the note [x]. *)
Definition sample_note_fails (n : string) : result (list MidiEvent) :=
  if String.eqb n "x" then Raise (OtherError "bad note")
  else sample_note_events n.

Definition sample_bad_note_score : Score string string :=
  [GeneralNote "c4" false; GeneralNote "x" false].

Definition sample_parse_bad_note (s : string)
  : result (Score string string) :=
  if String.eqb s "<mei />" then Ok sample_bad_note_score
  else Raise (OtherError "not MEI").

(** ** ElementTree on a carriage return

    What [ET.fromstring] and [ET.tostring] do at three texts: a character
    reference to a carriage return is parsed to that character, the
    character is written as it is, and a carriage return that is written as
    it is is parsed as a line feed.  Other texts are not needed and are
    rejected here. *)





(** A score whose first tempo marking translates to no event. *)
Definition silent_first_score : Score string string :=
  [TempoIndication ""; GeneralNote "c4" false].

Definition sample_parse_silent (s : string)
  : result (Score string string) :=
  if String.eqb s "<mei />" then Ok silent_first_score
  else Raise (OtherError "not MEI").


(** A document whose root element is a measure with a number that is not
    one. *)
Definition root_measure_doc : Element := E 0 "measure" [("n", "abc")] [].


(** * Properties *)

Unset Implicit Arguments.

(** ** Lists *)

Lemma NoDup_map_inj_in (A B : Type) (f : A -> B) (l : list A) (a b : A) :
  NoDup (map f l) -> In a l -> In b l -> f a = f b -> a = b.
Proof.
  induction l as [|c l IH]; simpl; intros Hnd Ha Hb Hab; [contradiction|].
  inversion Hnd as [|? ? Hnotin Hnd']; subst.
  destruct Ha as [Ha|Ha], Hb as [Hb|Hb]; subst.
  - reflexivity.
  - exfalso. apply Hnotin. rewrite Hab. now apply in_map.
  - exfalso. apply Hnotin. rewrite <- Hab. now apply in_map.
  - now apply IH.
Qed.

Lemma NoDup_map_filter (A B : Type) (key : A -> B) (keep : A -> bool)
      (xs : list A) :
  NoDup (map key xs) -> NoDup (map key (filter keep xs)).
Proof.
  induction xs as [|c xs IH]; simpl; intros Hnd; [constructor|].
  inversion Hnd as [|? ? Hnotin Hnd']; subst.
  destruct (keep c); simpl; [constructor|]; auto.
  intros Hin. apply Hnotin.
  apply in_map_iff in Hin as (y & Hy & Hin).
  apply filter_In in Hin as [Hin _].
  rewrite <- Hy. now apply in_map.
Qed.

Lemma NoDup_app_inv (A : Type) (l1 l2 : list A) :
  NoDup (l1 ++ l2) ->
  NoDup l1 /\ NoDup l2 /\ (forall a, In a l1 -> In a l2 -> False).
Proof.
  induction l1 as [|a l1 IH]; simpl; intros Hnd.
  - repeat split; [constructor | assumption | contradiction].
  - inversion Hnd as [|? ? Hnotin Hnd']; subst.
    destruct (IH Hnd') as (H1 & H2 & H3).
    repeat split; trivial.
    + constructor; trivial. intros Hin. apply Hnotin, in_or_app. now left.
    + intros b [Hb|Hb] Hb2; subst.
      * apply Hnotin, in_or_app. now right.
      * eauto.
Qed.

Lemma find_app (A : Type) (p : A -> bool) (l1 l2 : list A) :
  find p (l1 ++ l2) =
  match find p l1 with Some x => Some x | None => find p l2 end.
Proof.
  induction l1 as [|y l1 IH]; simpl; trivial.
  now destruct (p y).
Qed.

Lemma find_flat_map_split (A B : Type) (p : B -> bool) (g : A -> list B)
      (l : list A) (b : B) :
  find p (flat_map g l) = Some b ->
  exists l1 c l2, l = l1 ++ c :: l2 /\
                  (forall c', In c' l1 -> find p (g c') = None) /\
                  find p (g c) = Some b.
Proof.
  induction l as [|c l IH]; simpl; intros Hf; [discriminate|].
  rewrite find_app in Hf.
  destruct (find p (g c)) as [b'|] eqn:Hc.
  - exists [], c, l. split; [reflexivity|]. split; [contradiction|].
    congruence.
  - destruct (IH Hf) as (l1 & c0 & l2 & -> & Hl1 & Hc0).
    exists (c :: l1), c0, l2. split; [reflexivity|].
    split; trivial. intros c' [<-|Hin]; auto.
Qed.

Lemma find_flat_map_none (A B : Type) (p : B -> bool) (g : A -> list B)
      (l : list A) :
  find p (flat_map g l) = None ->
  forall c, In c l -> find p (g c) = None.
Proof.
  intros Hf c Hin.
  destruct (find p (g c)) as [b|] eqn:Hc; trivial.
  apply find_some in Hc as [Hb Hp].
  rewrite (find_none _ _ Hf b) in Hp; [discriminate|].
  apply in_flat_map. eauto.
Qed.

(** ** Identities *)

Lemma ids_eq i t a tx tl cs :
  ids (Elem i t a tx tl cs) = i :: flat_map ids cs.
Proof.
  unfold ids. simpl. f_equal.
  induction cs as [|c cs IH]; simpl; trivial.
  now rewrite map_app, IH.
Qed.

Lemma in_ids_self e : In (eid e) (ids e).
Proof. destruct e. rewrite ids_eq. now left. Qed.

Lemma in_iter_self e : In e (iter e).
Proof. destruct e. now left. Qed.

Lemma in_iter_ids e e' : In e' (iter e) -> In (eid e') (ids e).
Proof. intros H. unfold ids. now apply in_map. Qed.

Lemma iter_trans e c d : In c (iter e) -> In d (iter c) -> In d (iter e).
Proof.
  induction e as [i t a tx tl cs IH] using Element_ind.
  simpl. intros [<-|Hc] Hd; [exact Hd|].
  right. apply in_flat_map in Hc as (c0 & Hc0 & Hc).
  apply in_flat_map. exists c0. split; trivial.
  rewrite Forall_forall in IH. eauto.
Qed.

Lemma child_in_iter e c : In c (children e) -> In c (iter e).
Proof.
  destruct e as [i t a tx tl cs]. simpl. intros H. right.
  apply in_flat_map. exists c. split; [trivial | apply in_iter_self].
Qed.

Lemma in_ids_child cs c y : In c cs -> In y (ids c) -> In y (flat_map ids cs).
Proof. intros. apply in_flat_map. eauto. Qed.

Lemma wf_inv i t a tx tl cs :
  wf (Elem i t a tx tl cs) ->
  ~ In i (flat_map ids cs) /\ NoDup (flat_map ids cs).
Proof.
  unfold wf. rewrite ids_eq. intros H. inversion H; subst. now split.
Qed.

Lemma NoDup_flat_map_child (cs : list Element) c :
  NoDup (flat_map ids cs) -> In c cs -> NoDup (ids c).
Proof.
  induction cs as [|c0 cs IH]; simpl; intros Hnd Hin; [contradiction|].
  apply NoDup_app_inv in Hnd as (H1 & H2 & _).
  destruct Hin as [<-|Hin]; auto.
Qed.

Lemma wf_child e c : wf e -> In c (children e) -> wf c.
Proof.
  destruct e as [i t a tx tl cs]. intros H Hin.
  apply wf_inv in H as [_ H]. simpl in Hin.
  eapply NoDup_flat_map_child; eauto.
Qed.

(** The subtrees of two children share no identity. *)
Lemma child_unique (cs : list Element) c c' y :
  NoDup (flat_map ids cs) -> In c cs -> In c' cs ->
  In y (ids c) -> In y (ids c') -> c = c'.
Proof.
  induction cs as [|c0 cs IH]; simpl; intros Hnd Hc Hc' Hy Hy';
    [contradiction|].
  apply NoDup_app_inv in Hnd as (H1 & H2 & H3).
  destruct Hc as [<-|Hc], Hc' as [<-|Hc']; trivial.
  - exfalso. apply (H3 y); trivial. eapply in_ids_child; eauto.
  - exfalso. apply (H3 y); trivial. eapply in_ids_child; eauto.
  - auto.
Qed.

Lemma wf_iter e c : wf e -> In c (iter e) -> wf c.
Proof.
  induction e as [i t a tx tl cs IH] using Element_ind.
  intros Hwf [<-|Hin]; trivial.
  apply in_flat_map in Hin as (c0 & Hc0 & Hin).
  rewrite Forall_forall in IH. apply (IH c0 Hc0); trivial.
  eapply wf_child; eauto.
Qed.

(** ** Removal of verses *)

Lemma remove_set_eq P i t a tx tl cs :
  remove_set P (Elem i t a tx tl cs) =
  Elem i t a tx tl
       (map (remove_set P) (filter (fun c => negb (P (eid c))) cs)).
Proof.
  simpl. f_equal.
  induction cs as [|c cs IH]; simpl; trivial.
  destruct (P (eid c)); simpl; now rewrite IH.
Qed.

Lemma prune_eq i t a tx tl cs :
  prune (Elem i t a tx tl cs) =
  Elem i t a tx tl
       (map prune (filter (fun c => negb (has_tag mei_verse c)) cs)).
Proof.
  simpl. f_equal.
  induction cs as [|c cs IH]; simpl; trivial.
  destruct (has_tag mei_verse c); simpl; now rewrite IH.
Qed.

Lemma find_parent_eq i t a tx tl cs x :
  find_parent (Elem i t a tx tl cs) x =
  if has_child x (Elem i t a tx tl cs) then Some (Elem i t a tx tl cs)
  else find (has_child x) (flat_map iter cs).
Proof. reflexivity. Qed.

Lemma remove_set_id P e :
  (forall p c, In p (iter e) -> In c (children p) -> P (eid c) = false) ->
  remove_set P e = e.
Proof.
  induction e as [i t a tx tl cs IH] using Element_ind. intros H.
  rewrite remove_set_eq. f_equal.
  rewrite forallb_filter_id.
  - rewrite <- (map_id cs) at 2. apply map_ext_in. intros c Hc.
    rewrite Forall_forall in IH. apply IH; trivial.
    intros p c' Hp Hc'. apply (H p c'); trivial.
    eapply iter_trans; [|exact Hp].
    apply (child_in_iter (Elem i t a tx tl cs)). exact Hc.
  - apply forallb_forall. intros c Hc.
    rewrite (H (Elem i t a tx tl cs) c); trivial. apply in_iter_self.
Qed.

Lemma remove_id_not_in x e : ~ In x (ids e) -> remove_id x e = e.
Proof.
  intros Hx. apply remove_set_id. intros p c Hp Hc.
  apply Nat.eqb_neq. intros <-. apply Hx.
  apply in_iter_ids. eapply iter_trans; [exact Hp|].
  now apply child_in_iter.
Qed.

Lemma remove_id_no_parent x e : find_parent e x = None -> remove_id x e = e.
Proof.
  intros Hf. apply remove_set_id. intros p c Hp Hc.
  pose proof (find_none _ _ Hf p Hp) as Hh. unfold has_child in Hh.
  destruct (Nat.eqb (eid c) x) eqn:E; trivial.
  assert (existsb (fun c0 => Nat.eqb (eid c0) x) (children p) = true)
    by (apply existsb_exists; eauto).
  congruence.
Qed.

Lemma set_children_at_not_in p cs' e :
  ~ In p (ids e) -> set_children_at p cs' e = e.
Proof.
  induction e as [i t a tx tl cs IH] using Element_ind. intros Hp.
  rewrite ids_eq in Hp. simpl.
  destruct (Nat.eqb i p) eqn:E.
  - apply Nat.eqb_eq in E. subst. exfalso. apply Hp. now left.
  - f_equal. rewrite <- (map_id cs) at 2. apply map_ext_in. intros c Hc.
    rewrite Forall_forall in IH. apply IH; trivial.
    intros Hin. apply Hp. right. eapply in_ids_child; eauto.
Qed.

Lemma NoDup_child_ids (cs : list Element) :
  NoDup (flat_map ids cs) -> NoDup (map eid cs).
Proof.
  induction cs as [|c cs IH]; simpl; intros Hnd; [constructor|].
  apply NoDup_app_inv in Hnd as (H1 & H2 & H3).
  constructor; auto.
  intros Hin. apply in_map_iff in Hin as (c' & Heq & Hc').
  apply (H3 (eid c)); [apply in_ids_self|].
  rewrite <- Heq. eapply in_ids_child; eauto. apply in_ids_self.
Qed.

(** [list.remove] finds what [in] has found, and on distinct objects the
    first occurrence is the only one. *)
Lemma list_remove_filter x (cs : list Element) :
  existsb (fun c => Nat.eqb (eid c) x) cs = true ->
  NoDup (map eid cs) ->
  list_remove x cs = Ok (filter (fun c => negb (Nat.eqb (eid c) x)) cs).
Proof.
  induction cs as [|c cs IH]; simpl; intros Hex Hnd; [discriminate|].
  inversion Hnd as [|? ? Hnotin Hnd']; subst.
  destruct (Nat.eqb (eid c) x) eqn:E; simpl.
  - f_equal. symmetry. apply forallb_filter_id, forallb_forall.
    intros c' Hc'. apply Nat.eqb_eq in E. subst.
    apply negb_true_iff, Nat.eqb_neq. intros Heq. apply Hnotin.
    rewrite <- Heq. now apply in_map.
  - rewrite IH; trivial.
Qed.

Lemma list_remove_found x (cs : list Element) :
  existsb (fun c => Nat.eqb (eid c) x) cs = true ->
  exists cs', list_remove x cs = Ok cs'.
Proof.
  induction cs as [|c cs IH]; simpl; intros Hex; [discriminate|].
  destruct (Nat.eqb (eid c) x); simpl in *; eauto.
  destruct (IH Hex) as (cs' & ->). simpl. eauto.
Qed.

(** One iteration of the verse loop drops the children with that identity:
    the parent that the search finds is the only one. *)
Lemma verse_step_spec e :
  wf e -> forall x, verse_step e x = Ok (remove_id x e).
Proof.
  induction e as [i t a tx tl cs IH] using Element_ind. intros Hwf x.
  destruct (wf_inv _ _ _ _ _ _ Hwf) as [Hi Hnd].
  unfold verse_step. rewrite find_parent_eq.
  destruct (has_child x (Elem i t a tx tl cs)) eqn:Hhc.
  - unfold has_child in Hhc. simpl children in *.
    rewrite list_remove_filter; trivial; [|now apply NoDup_child_ids].
    simpl. rewrite Nat.eqb_refl. unfold remove_id. rewrite remove_set_eq.
    f_equal. f_equal.
    match goal with |- ?l = _ => rewrite <- (map_id l) at 1 end.
    apply map_ext_in. intros c Hc. apply filter_In in Hc as [Hc Hne].
    symmetry. apply remove_id_not_in. intros Hin.
    apply existsb_exists in Hhc as (c0 & Hc0 & Heq).
    apply Nat.eqb_eq in Heq.
    assert (c = c0).
    { apply (child_unique cs c c0 x Hnd Hc Hc0 Hin).
      rewrite <- Heq. apply in_ids_self. }
    subst. rewrite Nat.eqb_refl in Hne. discriminate.
  - destruct (find (has_child x) (flat_map iter cs)) as [p|] eqn:Hf.
    + destruct (find_flat_map_split _ _ _ _ _ _ Hf)
        as (l1 & c & l2 & Hcs & _ & Hc).
      destruct (find_some _ _ Hc) as [Hp Hpx].
      assert (Hcin : In c cs) by (subst cs; apply in_elt).
      rewrite Forall_forall in IH.
      pose proof (IH c Hcin (wf_child (Elem i t a tx tl cs) c Hwf Hcin) x)
        as IHc.
      unfold verse_step, find_parent in IHc. rewrite Hc in IHc.
      destruct (list_remove x (children p)) as [cs'|] eqn:Hrm;
        simpl in IHc; [|discriminate].
      injection IHc as IHc.
      assert (Hpc : In (eid p) (ids c)) by now apply in_iter_ids.
      assert (Hxc : In x (ids c)).
      { apply existsb_exists in Hpx as (c1 & Hc1 & Heq).
        apply Nat.eqb_eq in Heq. subst x. apply in_iter_ids.
        eapply iter_trans; [exact Hp|]. now apply child_in_iter. }
      assert (Hne : Nat.eqb i (eid p) = false).
      { apply Nat.eqb_neq. intros ->. apply Hi.
        eapply in_ids_child; eauto. }
      simpl. rewrite Hne. unfold remove_id. rewrite remove_set_eq.
      f_equal. f_equal.
      rewrite forallb_filter_id.
      * apply map_ext_in. intros c' Hc'.
        destruct (in_dec Nat.eq_dec (eid p) (ids c')) as [Hin|Hnin].
        -- assert (c' = c) by (eapply child_unique; eauto). now subst.
        -- rewrite set_children_at_not_in; trivial.
           symmetry. apply remove_id_not_in. intros Hin. apply Hnin.
           assert (c' = c) by (eapply child_unique; eauto). now subst.
      * unfold has_child in Hhc. simpl in Hhc.
        apply forallb_forall. intros c' Hc'.
        destruct (Nat.eqb (eid c') x) eqn:E; trivial.
        assert (existsb (fun c0 => Nat.eqb (eid c0) x) cs = true)
          by (apply existsb_exists; eauto).
        congruence.
    + f_equal. symmetry. apply remove_id_no_parent.
      rewrite find_parent_eq, Hhc. exact Hf.
Qed.

Lemma eid_remove_set P e : eid (remove_set P e) = eid e.
Proof. now destruct e. Qed.

Lemma tag_remove_set P e : tag (remove_set P e) = tag e.
Proof. now destruct e. Qed.

Lemma remove_set_ids_incl P e y :
  In y (ids (remove_set P e)) -> In y (ids e).
Proof.
  revert y. induction e as [i t a tx tl cs IH] using Element_ind.
  intros y. rewrite remove_set_eq, !ids_eq. intros [->|Hin]; [now left|].
  right. apply in_flat_map in Hin as (c' & Hc' & Hy).
  apply in_map_iff in Hc' as (c & <- & Hc).
  apply filter_In in Hc as [Hc _].
  rewrite Forall_forall in IH. eapply in_ids_child; eauto.
Qed.

Lemma NoDup_flat_map_shrink (F : Element -> Element) (Q : Element -> bool)
      (cs : list Element) :
  NoDup (flat_map ids cs) ->
  (forall c, In c cs ->
             NoDup (ids (F c)) /\ forall y, In y (ids (F c)) -> In y (ids c)) ->
  NoDup (flat_map ids (map F (filter Q cs))).
Proof.
  induction cs as [|c cs IH]; simpl; intros Hnd HF; [constructor|].
  apply NoDup_app_inv in Hnd as (H1 & H2 & H3).
  assert (IH' : NoDup (flat_map ids (map F (filter Q cs)))) by auto.
  destruct (Q c); simpl; trivial.
  destruct (HF c (or_introl eq_refl)) as [HFc Hincl].
  apply NoDup_app; trivial.
  intros y Hy Hy'. apply (H3 y); auto.
  apply in_flat_map in Hy' as (c' & Hc' & Hy').
  apply in_map_iff in Hc' as (c0 & <- & Hc0).
  apply filter_In in Hc0 as [Hc0 _].
  apply (in_ids_child cs c0); trivial.
  now apply (proj2 (HF c0 (or_intror Hc0))).
Qed.

(** Removal keeps the objects distinct. *)
Lemma remove_set_wf P e : wf e -> wf (remove_set P e).
Proof.
  induction e as [i t a tx tl cs IH] using Element_ind. intros Hwf.
  destruct (wf_inv _ _ _ _ _ _ Hwf) as [Hi Hnd].
  unfold wf. rewrite remove_set_eq, ids_eq.
  rewrite Forall_forall in IH.
  constructor.
  - intros Hin. apply Hi.
    apply in_flat_map in Hin as (c' & Hc' & Hy).
    apply in_map_iff in Hc' as (c & <- & Hc).
    apply filter_In in Hc as [Hc _].
    apply (in_ids_child cs c); trivial.
    now apply (remove_set_ids_incl P).
  - apply NoDup_flat_map_shrink; trivial.
    intros c Hc. split.
    + apply IH; trivial. now apply (NoDup_flat_map_child cs).
    + intros y. apply remove_set_ids_incl.
Qed.

Lemma remove_set_ext P Q e :
  (forall i, P i = Q i) -> remove_set P e = remove_set Q e.
Proof.
  intros HPQ. induction e as [i t a tx tl cs IH] using Element_ind.
  rewrite !remove_set_eq. f_equal.
  rewrite Forall_forall in IH.
  rewrite (filter_ext _ (fun c => negb (Q (eid c)))).
  - apply map_ext_in. intros c Hc. apply filter_In in Hc as [Hc _]. auto.
  - intros c. now rewrite HPQ.
Qed.

Lemma remove_set_remove_set P Q e :
  remove_set P (remove_set Q e) = remove_set (fun i => Q i || P i) e.
Proof.
  induction e as [i t a tx tl cs IH] using Element_ind.
  rewrite !remove_set_eq. f_equal.
  rewrite Forall_forall in IH.
  induction cs as [|c cs IHcs]; simpl; trivial.
  destruct (Q (eid c)) eqn:EQ; simpl.
  - apply IHcs. intros c' Hc'. apply IH. now right.
  - rewrite eid_remove_set.
    destruct (P (eid c)) eqn:EP; simpl.
    + apply IHcs. intros c' Hc'. apply IH. now right.
    + f_equal.
      * apply IH. now left.
      * apply IHcs. intros c' Hc'. apply IH. now right.
Qed.

Lemma fold_remove_id (L : list nat) e :
  fold_left (fun r x => remove_id x r) L e = remove_set (fun i => mem i L) e.
Proof.
  revert e. induction L as [|x L IH]; intros e; simpl.
  - symmetry. now apply remove_set_id.
  - rewrite IH. unfold remove_id. rewrite remove_set_remove_set.
    reflexivity.
Qed.

Lemma for_each_verse_step (L : list nat) e :
  wf e ->
  for_each verse_step L e = Ok (fold_left (fun r x => remove_id x r) L e).
Proof.
  revert e. induction L as [|x L IH]; intros e Hwf; simpl; trivial.
  rewrite verse_step_spec; trivial. simpl.
  apply IH. now apply remove_set_wf.
Qed.

Lemma descendants_ids e : ids e = eid e :: map eid (descendants e).
Proof. now destruct e. Qed.

Lemma wf_descendants e : wf e -> NoDup (map eid (descendants e)).
Proof.
  unfold wf. rewrite descendants_ids. intros H. now inversion H.
Qed.

(** On distinct objects a descendant is referenced by a [findall] loop
    exactly when it has the tag. *)
Lemma mem_refs t root c :
  wf root -> In c (descendants root) ->
  mem (eid c) (refs t root) = has_tag t c.
Proof.
  intros Hwf Hc. apply wf_descendants in Hwf.
  unfold mem, refs, findall_desc.
  destruct (has_tag t c) eqn:Ht.
  - apply existsb_exists. exists (eid c). split; [|apply Nat.eqb_refl].
    apply in_map, filter_In. now split.
  - destruct (existsb _ _) eqn:E; trivial.
    apply existsb_exists in E as (y & Hy & Heq).
    apply Nat.eqb_eq in Heq. subst y.
    apply in_map_iff in Hy as (d & Heq & Hd).
    apply filter_In in Hd as [Hd Hdt].
    assert (d = c) by (eapply NoDup_map_inj_in; eauto).
    congruence.
Qed.

Lemma descendants_child e c d :
  In c (children e) -> In d (iter c) -> In d (descendants e).
Proof. intros Hc Hd. apply in_flat_map. eauto. Qed.

Lemma descendants_iter e d : In d (descendants e) -> In d (iter e).
Proof. destruct e. simpl. now right. Qed.

Lemma remove_set_prune P e :
  (forall c, In c (descendants e) -> P (eid c) = has_tag mei_verse c) ->
  remove_set P e = prune e.
Proof.
  induction e as [i t a tx tl cs IH] using Element_ind. intros HP.
  rewrite remove_set_eq, prune_eq. f_equal.
  rewrite Forall_forall in IH.
  rewrite (filter_ext_in _ (fun c => negb (has_tag mei_verse c))).
  - apply map_ext_in. intros c Hc. apply filter_In in Hc as [Hc _].
    apply IH; trivial. intros d Hd. apply HP.
    apply (descendants_child (Elem i t a tx tl cs) c); trivial.
    now apply descendants_iter.
  - intros c Hc. rewrite HP; trivial.
    apply (descendants_child (Elem i t a tx tl cs) c); trivial.
    apply in_iter_self.
Qed.

(** The verse loop computes [prune]. *)
Lemma verse_pass_spec root : wf root -> verse_pass root = Ok (prune root).
Proof.
  intros Hwf. unfold verse_pass.
  rewrite for_each_verse_step, fold_remove_id; trivial.
  f_equal. apply remove_set_prune. intros c Hc.
  now apply (mem_refs mei_verse).
Qed.

(** ** Attribute writes *)

Lemma modify_attrib_at_eq x f e :
  modify_attrib_at x f e =
  map_attrib_by_id (fun i a => if Nat.eqb i x then f a else a) e.
Proof.
  induction e as [i t a tx tl cs IH] using Element_ind. simpl. f_equal.
  apply map_ext_in. rewrite Forall_forall in IH. auto.
Qed.

Lemma map_attrib_by_id_ext_in h1 h2 e :
  (forall d, In d (iter e) -> h1 (eid d) (attrib d) = h2 (eid d) (attrib d)) ->
  map_attrib_by_id h1 e = map_attrib_by_id h2 e.
Proof.
  induction e as [i t a tx tl cs IH] using Element_ind. intros H.
  simpl. f_equal.
  - apply (H (Elem i t a tx tl cs)). apply in_iter_self.
  - apply map_ext_in. intros c Hc. rewrite Forall_forall in IH.
    apply IH; trivial. intros d Hd. apply H.
    eapply iter_trans; [|exact Hd].
    now apply (child_in_iter (Elem i t a tx tl cs)).
Qed.

Lemma map_attrib_by_id_id h e :
  (forall d, In d (iter e) -> h (eid d) (attrib d) = attrib d) ->
  map_attrib_by_id h e = e.
Proof.
  induction e as [i t a tx tl cs IH] using Element_ind. intros H.
  simpl. f_equal.
  - apply (H (Elem i t a tx tl cs)). apply in_iter_self.
  - rewrite <- (map_id cs) at 2.
    apply map_ext_in. intros c Hc. rewrite Forall_forall in IH.
    apply IH; trivial. intros d Hd. apply H.
    eapply iter_trans; [|exact Hd].
    now apply (child_in_iter (Elem i t a tx tl cs)).
Qed.

Lemma map_attrib_by_id_comp h1 h2 e :
  map_attrib_by_id h2 (map_attrib_by_id h1 e) =
  map_attrib_by_id (fun i a => h2 i (h1 i a)) e.
Proof.
  induction e as [i t a tx tl cs IH] using Element_ind. simpl. f_equal.
  rewrite map_map. apply map_ext_in. rewrite Forall_forall in IH. auto.
Qed.

Lemma eid_map_attrib h e : eid (map_attrib_by_id h e) = eid e.
Proof. now destruct e. Qed.

Lemma tag_map_attrib h e : tag (map_attrib_by_id h e) = tag e.
Proof. now destruct e. Qed.

Lemma children_map_attrib h e :
  children (map_attrib_by_id h e) = map (map_attrib_by_id h) (children e).
Proof. now destruct e. Qed.

Lemma attrib_map_attrib h e :
  attrib (map_attrib_by_id h e) = h (eid e) (attrib e).
Proof. now destruct e. Qed.

Lemma iter_map_attrib h e :
  iter (map_attrib_by_id h e) = map (map_attrib_by_id h) (iter e).
Proof.
  induction e as [i t a tx tl cs IH] using Element_ind. simpl. f_equal.
  rewrite Forall_forall in IH.
  induction cs as [|c cs IHcs]; simpl; trivial.
  rewrite map_app, IH, IHcs; auto using in_eq, in_cons.
Qed.

Lemma ids_map_attrib h e : ids (map_attrib_by_id h e) = ids e.
Proof.
  unfold ids. rewrite iter_map_attrib, map_map.
  apply map_ext. intros d. apply eid_map_attrib.
Qed.

Lemma wf_map_attrib h e : wf e -> wf (map_attrib_by_id h e).
Proof. unfold wf. now rewrite ids_map_attrib. Qed.

(** A loop of attribute writes to distinct objects is one simultaneous
    write. *)
Lemma fold_modify (g : nat -> attrs -> attrs) (L : list nat) e :
  NoDup L ->
  fold_left (fun r x => modify_attrib_at x (g x) r) L e =
  map_attrib_by_id (fun i a => if mem i L then g i a else a) e.
Proof.
  revert e. induction L as [|x L IH]; intros e Hnd; simpl.
  - symmetry. now apply map_attrib_by_id_id.
  - inversion Hnd as [|? ? Hx Hnd']; subst.
    rewrite IH, modify_attrib_at_eq, map_attrib_by_id_comp; trivial.
    apply map_attrib_by_id_ext_in. intros d _.
    destruct (Nat.eqb (eid d) x) eqn:E; simpl; trivial.
    apply Nat.eqb_eq in E. rewrite E.
    destruct (mem x L) eqn:Hm; trivial.
    exfalso. apply Hx. unfold mem in Hm.
    apply existsb_exists in Hm as (y & Hy & Heq).
    apply Nat.eqb_eq in Heq. now subst.
Qed.

Lemma NoDup_refs t root : wf root -> NoDup (refs t root).
Proof.
  intros Hwf. unfold refs, findall_desc.
  apply NoDup_map_filter. now apply wf_descendants.
Qed.

Lemma mem_refs_root t root : wf root -> mem (eid root) (refs t root) = false.
Proof.
  intros Hwf. unfold wf in Hwf. rewrite descendants_ids in Hwf.
  inversion Hwf as [|? ? Hx _]; subst.
  destruct (mem _ _) eqn:Hm; trivial.
  exfalso. apply Hx. unfold mem, refs, findall_desc in Hm.
  apply existsb_exists in Hm as (y & Hy & Heq).
  apply Nat.eqb_eq in Heq. subst y.
  apply in_map_iff in Hy as (d & Heq & Hd).
  apply filter_In in Hd as [Hd _].
  rewrite <- Heq. now apply in_map.
Qed.

(** ** Normalisation of syllable markers *)

Lemma map_attrib_norm_syl h e :
  (forall c a, In c (iter e) ->
               h (eid c) a = if has_tag mei_syl c then normalize_wordpos a
                             else a) ->
  map_attrib_by_id h e = norm_syl e.
Proof.
  induction e as [i t a tx tl cs IH] using Element_ind. intros H.
  simpl. f_equal.
  - apply (H (Elem i t a tx tl cs)). apply in_iter_self.
  - apply map_ext_in. intros c Hc. rewrite Forall_forall in IH.
    apply IH; trivial. intros d a' Hd. apply H.
    eapply iter_trans; [|exact Hd].
    now apply (child_in_iter (Elem i t a tx tl cs)).
Qed.

Lemma for_each_syl_step (L : list nat) e :
  for_each syl_step L e =
  Ok (fold_left (fun r x => modify_attrib_at x normalize_wordpos r) L e).
Proof.
  revert e. induction L as [|x L IH]; intros e; simpl; trivial.
Qed.

Lemma syl_pass_write root :
  wf root -> syl_pass root = Ok (map_attrib_by_id (syl_write root) root).
Proof.
  intros Hwf. unfold syl_pass. fold (refs mei_syl root).
  rewrite for_each_syl_step.
  rewrite (fold_modify (fun _ => normalize_wordpos)); [|now apply NoDup_refs].
  reflexivity.
Qed.

Lemma norm_below_write root :
  wf root -> map_attrib_by_id (syl_write root) root = norm_below root.
Proof.
  intros Hwf.
  pose proof (mem_refs_root mei_syl root Hwf) as Hroot.
  pose proof (fun c => mem_refs mei_syl root c Hwf) as Hdesc.
  unfold syl_write.
  destruct root as [i t a tx tl cs]. simpl in Hroot. simpl.
  rewrite Hroot. f_equal.
  apply map_ext_in. intros c Hc.
  apply map_attrib_norm_syl. intros d a' Hd.
  rewrite Hdesc; trivial.
  now apply (descendants_child (Elem i t a tx tl cs) c).
Qed.

(** The syllable loop computes [norm_below]. *)
Lemma syl_pass_spec root : wf root -> syl_pass root = Ok (norm_below root).
Proof.
  intros Hwf. rewrite syl_pass_write; trivial.
  now rewrite norm_below_write.
Qed.

Lemma wf_norm_below root : wf root -> wf (norm_below root).
Proof.
  intros Hwf. rewrite <- norm_below_write; trivial.
  now apply wf_map_attrib.
Qed.

(** ** Repair of measure numbers *)

Lemma find_map (A B : Type) (p : B -> bool) (g : A -> B) (l : list A) :
  find p (map g l) = option_map g (find (fun y => p (g y)) l).
Proof.
  induction l as [|y l IH]; simpl; trivial.
  now destruct (p (g y)).
Qed.

Lemma find_ext (A : Type) (p q : A -> bool) (l : list A) :
  (forall y, p y = q y) -> find p l = find q l.
Proof.
  intros H. induction l as [|y l IH]; simpl; trivial.
  now rewrite H, IH.
Qed.

Lemma has_child_map_attrib h x p :
  has_child x (map_attrib_by_id h p) = has_child x p.
Proof.
  unfold has_child. rewrite children_map_attrib.
  induction (children p) as [|c cs IH]; simpl; trivial.
  now rewrite eid_map_attrib, IH.
Qed.

Lemma find_parent_map_attrib h r x :
  find_parent (map_attrib_by_id h r) x =
  option_map (map_attrib_by_id h) (find_parent r x).
Proof.
  unfold find_parent. rewrite iter_map_attrib, find_map. f_equal.
  apply find_ext. intros p. apply has_child_map_attrib.
Qed.

Lemma node_at_map_attrib h r x :
  node_at x (map_attrib_by_id h r) =
  option_map (map_attrib_by_id h) (node_at x r).
Proof.
  unfold node_at. rewrite iter_map_attrib, find_map. f_equal.
  apply find_ext. intros p. now rewrite eid_map_attrib.
Qed.

Lemma findall_child_map_attrib h t p :
  findall_child t (map_attrib_by_id h p) =
  map (map_attrib_by_id h) (findall_child t p).
Proof.
  unfold findall_child. rewrite children_map_attrib.
  induction (children p) as [|c cs IH]; simpl; trivial.
  unfold has_tag at 1. rewrite tag_map_attrib. fold (has_tag t c).
  destruct (has_tag t c); simpl; now rewrite IH.
Qed.

Lemma list_index_map_attrib h x l :
  list_index x (map (map_attrib_by_id h) l) = list_index x l.
Proof.
  induction l as [|c l IH]; simpl; trivial.
  now rewrite eid_map_attrib, IH.
Qed.

Lemma sibling_index_map_attrib h r x :
  sibling_index (map_attrib_by_id h r) x = sibling_index r x.
Proof.
  unfold sibling_index. rewrite find_parent_map_attrib.
  destruct (find_parent r x) as [p|]; simpl; trivial.
  now rewrite findall_child_map_attrib, list_index_map_attrib.
Qed.

Lemma node_at_some x r m : node_at x r = Some m -> In m (iter r) /\ eid m = x.
Proof.
  intros H. apply find_some in H as [H1 H2].
  apply Nat.eqb_eq in H2. now split.
Qed.

Lemma node_unique r m m' :
  wf r -> In m (iter r) -> In m' (iter r) -> eid m = eid m' -> m = m'.
Proof. intros Hwf. now apply NoDup_map_inj_in. Qed.

(** Two writes to an object agree when they agree on its attributes. *)
Lemma modify_at_ext r m f g :
  wf r -> In m (iter r) -> f (attrib m) = g (attrib m) ->
  modify_attrib_at (eid m) f r = modify_attrib_at (eid m) g r.
Proof.
  intros Hwf Hm Hfg. rewrite !modify_attrib_at_eq.
  apply map_attrib_by_id_ext_in. intros d Hd.
  destruct (Nat.eqb (eid d) (eid m)) eqn:E; trivial.
  apply Nat.eqb_eq in E.
  now rewrite (node_unique r d m Hwf Hd Hm E).
Qed.

Lemma modify_id x r : modify_attrib_at x (fun a => a) r = r.
Proof.
  rewrite modify_attrib_at_eq. apply map_attrib_by_id_id.
  intros d _. now destruct (Nat.eqb (eid d) x).
Qed.

Lemma modify_not_in x f r : ~ In x (ids r) -> modify_attrib_at x f r = r.
Proof.
  intros Hx. rewrite modify_attrib_at_eq. apply map_attrib_by_id_id.
  intros d Hd. destruct (Nat.eqb (eid d) x) eqn:E; trivial.
  apply Nat.eqb_eq in E. subst x. exfalso. apply Hx.
  now apply in_iter_ids.
Qed.

Lemma list_index_found (l : list Element) c :
  In c l -> exists k, list_index (eid c) l = Ok k.
Proof.
  induction l as [|c0 l IH]; simpl; intros Hin; [contradiction|].
  destruct (Nat.eqb (eid c0) (eid c)) eqn:E; [eauto|].
  destruct Hin as [->|Hin]; [rewrite Nat.eqb_refl in E; discriminate|].
  destruct (IH Hin) as (k & ->). simpl. eauto.
Qed.

Lemma in_children_descendants r p c :
  In p (iter r) -> In c (children p) -> In c (descendants r).
Proof.
  destruct r as [i t a tx tl cs]. simpl. intros [<-|Hp] Hc.
  - apply in_flat_map. exists c. split; [exact Hc | apply in_iter_self].
  - apply in_flat_map in Hp as (c0 & Hc0 & Hp).
    apply in_flat_map. exists c0. split; trivial.
    eapply iter_trans; [exact Hp|]. now apply child_in_iter.
Qed.

Lemma wf_not_own_descendant r c :
  wf r -> In c (descendants r) -> eid c <> eid r.
Proof.
  unfold wf. rewrite descendants_ids. intros Hwf Hc Heq.
  inversion Hwf as [|? ? Hx _]; subst. apply Hx.
  rewrite <- Heq. now apply in_map.
Qed.

(** On distinct objects an element has one parent. *)
Lemma parent_unique r p p' c c' :
  wf r -> In p (iter r) -> In p' (iter r) ->
  In c (children p) -> In c' (children p') -> eid c = eid c' -> p = p'.
Proof.
  revert p p' c c'.
  induction r as [i t a tx tl cs IH] using Element_ind.
  intros p p' c c' Hwf Hp Hp' Hc Hc' Heq.
  destruct (wf_inv _ _ _ _ _ _ Hwf) as [Hi Hnd].
  rewrite Forall_forall in IH.
  assert (Hside : forall q q' d d',
             q = Elem i t a tx tl cs -> In q' (flat_map iter cs) ->
             In d (children q) -> In d' (children q') ->
             eid d = eid d' -> False).
  { intros q q' d d' -> Hq' Hd Hd' Hdd. simpl in Hd.
    apply in_flat_map in Hq' as (cj & Hcj & Hq').
    assert (Hd'j : In d' (descendants cj))
      by (eapply in_children_descendants; eauto).
    assert (d = cj).
    { apply (child_unique cs d cj (eid d)); trivial.
      - apply in_ids_self.
      - rewrite Hdd. apply in_iter_ids. now apply descendants_iter. }
    subst d.
    apply (wf_not_own_descendant cj d'); auto.
    now apply (NoDup_flat_map_child cs). }
  simpl in Hp, Hp'. destruct Hp as [Hp|Hp], Hp' as [Hp'|Hp'].
  - congruence.
  - exfalso. eapply (Hside p p' c c'); eauto.
  - exfalso. eapply (Hside p' p c' c); eauto.
  - apply in_flat_map in Hp as (cj & Hcj & Hp).
    apply in_flat_map in Hp' as (cj' & Hcj' & Hp').
    assert (cj = cj').
    { apply (child_unique cs cj cj' (eid c)); trivial.
      - apply in_iter_ids. eapply iter_trans; [exact Hp|].
        now apply child_in_iter.
      - rewrite Heq. apply in_iter_ids. eapply iter_trans; [exact Hp'|].
        now apply child_in_iter. }
    subst cj'.
    apply (IH cj Hcj p p' c c'); trivial.
    now apply (NoDup_flat_map_child cs).
Qed.

Lemma repair_below_eq int_ok i t a tx tl cs :
  repair_below int_ok (Elem i t a tx tl cs) =
  Elem i t a tx tl (repair_children int_ok 0 cs).
Proof.
  reflexivity.
Qed.

Lemma list_index_prefix x (l1 : list Element) c l2 :
  (forall d, In d l1 -> eid d <> x) -> eid c = x ->
  list_index x (l1 ++ c :: l2) = Ok (List.length l1).
Proof.
  intros Hl1 Hc. induction l1 as [|d l1 IH]; simpl.
  - now rewrite Hc, Nat.eqb_refl.
  - rewrite (proj2 (Nat.eqb_neq _ _) (Hl1 d (or_introl eq_refl))).
    rewrite IH; trivial. intros d' Hd'. apply Hl1. now right.
Qed.

Section MeasurePass.

Variable int_ok : string -> bool.

(** One iteration of the measure loop is a write to the attributes of the
    measure; [index] does not raise, because the measure that the parent
    search went for is among the measures of the parent it found. *)
Lemma measure_step_spec r x :
  wf r ->
  (forall m, node_at x r = Some m -> has_tag mei_measure m = true) ->
  measure_step int_ok r x =
  Ok (modify_attrib_at x (repair_at int_ok (sibling_index r x)) r).
Proof.
  intros Hwf Htag. unfold measure_step.
  destruct (node_at x r) as [m|] eqn:Hn.
  - destruct (node_at_some _ _ _ Hn) as [Hm Hx]. subst x.
    specialize (Htag m eq_refl).
    assert (Hnoop : forall o, repair_at int_ok o (attrib m) = attrib m ->
              Ok r = Ok (modify_attrib_at (eid m) (repair_at int_ok o) r)).
    { intros o Ho. f_equal.
      rewrite (modify_at_ext r m _ (fun a => a)); trivial.
      symmetry. apply modify_id. }
    destruct (attr_get "n" (attrib m)) as [num|] eqn:Hget.
    + destruct (truthy num) eqn:Htr.
      * destruct (int_ok num) eqn:Hint.
        -- apply Hnoop. destruct (sibling_index r (eid m)); simpl; trivial.
           unfold repair_n. now rewrite Hget, Htr, Hint.
        -- unfold sibling_index.
           destruct (find_parent r (eid m)) as [p|] eqn:Hp.
           ++ destruct (find_some _ _ Hp) as [Hpin Hpc].
              apply existsb_exists in Hpc as (c & Hc & Heq).
              apply Nat.eqb_eq in Heq.
              assert (c = m).
              { apply (node_unique r); trivial.
                eapply iter_trans; [exact Hpin|]. now apply child_in_iter. }
              subst c.
              destruct (list_index_found (findall_child mei_measure p) m)
                as (k & Hk).
              { apply filter_In. now split. }
              rewrite Hk. simpl. f_equal.
              apply modify_at_ext; trivial.
              unfold repair_at, repair_n. now rewrite Hget, Htr, Hint.
           ++ now apply (Hnoop None).
      * apply Hnoop. destruct (sibling_index r (eid m)); simpl; trivial.
        unfold repair_n. now rewrite Hget, Htr.
    + apply Hnoop. destruct (sibling_index r (eid m)); simpl; trivial.
      unfold repair_n. now rewrite Hget.
  - f_equal. symmetry. apply modify_not_in. intros Hin.
    apply in_map_iff in Hin as (d & Hd & Hin).
    pose proof (find_none _ _ Hn d Hin) as Hf. simpl in Hf.
    rewrite Hd, Nat.eqb_refl in Hf. discriminate.
Qed.

Lemma for_each_measure_step r0 (L : list nat) r :
  wf r ->
  (forall x m, In x L -> node_at x r = Some m ->
               has_tag mei_measure m = true) ->
  (forall x, sibling_index r x = sibling_index r0 x) ->
  for_each (measure_step int_ok) L r =
  Ok (fold_left
        (fun r' x =>
           modify_attrib_at x (repair_at int_ok (sibling_index r0 x)) r')
        L r).
Proof.
  revert r. induction L as [|x L IH]; intros r Hwf Htag Hidx; simpl; trivial.
  rewrite measure_step_spec; trivial;
    [|intros m; apply Htag; now left].
  simpl. rewrite Hidx.
  rewrite (modify_attrib_at_eq x _ r).
  rewrite IH.
  - now rewrite <- modify_attrib_at_eq.
  - now apply wf_map_attrib.
  - intros y m Hy Hm. rewrite node_at_map_attrib in Hm.
    destruct (node_at y r) as [m0|] eqn:Hm0; simpl in Hm; [|discriminate].
    injection Hm as <-. unfold has_tag. rewrite tag_map_attrib.
    apply (Htag y m0); trivial. now right.
  - intros y. now rewrite sibling_index_map_attrib.
Qed.

End MeasurePass.

Lemma with_attrib_ext f g e :
  (forall a, f a = g a) -> with_attrib f e = with_attrib g e.
Proof. intros H. destruct e. simpl. now rewrite H. Qed.

Lemma with_attrib_id e : with_attrib (fun a => a) e = e.
Proof. now destruct e. Qed.

Lemma wf_children_ids r p :
  wf r -> In p (iter r) -> NoDup (map eid (children p)).
Proof.
  intros Hwf Hp. apply (wf_iter r p Hwf) in Hp.
  destruct p as [i t a tx tl cs].
  apply wf_inv in Hp as [_ Hp]. now apply NoDup_child_ids.
Qed.

Section RepairSpec.

Variable int_ok : string -> bool.

(** The simultaneous write that repairs each measure with its position among
    the measures of its parent is [repair_below]. *)
Lemma map_attrib_repair h e :
  (forall p l1 c l2 a,
      In p (iter e) -> children p = l1 ++ c :: l2 ->
      h (eid c) a =
      if has_tag mei_measure c
      then repair_n int_ok (List.length (filter (has_tag mei_measure) l1)) a
      else a) ->
  map_attrib_by_id h e = with_attrib (h (eid e)) (repair_below int_ok e).
Proof.
  induction e as [i t a tx tl cs IH] using Element_ind. intros H.
  rewrite repair_below_eq. simpl. f_equal.
  rewrite Forall_forall in IH.
  assert (Hgo : forall l2 l1, cs = l1 ++ l2 ->
             map (map_attrib_by_id h) l2 =
             repair_children int_ok
               (List.length (filter (has_tag mei_measure) l1)) l2).
  { induction l2 as [|c l2 IHl2]; intros l1 Hcs; simpl; trivial.
    assert (Hc : In c cs) by (subst cs; apply in_elt).
    rewrite (IH c Hc).
    - specialize (IHl2 (l1 ++ [c])).
      rewrite <- app_assoc in IHl2. specialize (IHl2 Hcs).
      rewrite filter_app, length_app in IHl2. simpl in IHl2.
      destruct (has_tag mei_measure c) eqn:Ht; simpl in IHl2.
      + rewrite Nat.add_1_r in IHl2. rewrite IHl2. f_equal.
        apply with_attrib_ext. intros a'.
        rewrite (H (Elem i t a tx tl cs) l1 c l2 a'); trivial.
        * now rewrite Ht.
        * apply in_iter_self.
      + rewrite Nat.add_0_r in IHl2. rewrite IHl2. f_equal.
        rewrite <- (with_attrib_id (repair_below int_ok c)) at 2.
        apply with_attrib_ext. intros a'.
        rewrite (H (Elem i t a tx tl cs) l1 c l2 a'); trivial.
        * now rewrite Ht.
        * apply in_iter_self.
    - intros p l1' c' l2' a' Hp Hch. apply (H p l1' c' l2' a'); trivial.
      eapply iter_trans; [|exact Hp].
      now apply (child_in_iter (Elem i t a tx tl cs)). }
  apply (Hgo cs []). reflexivity.
Qed.

(** The position that the loop computes for a measure: the parent search
    finds the parent, and [index] counts the measures before it. *)
Lemma sibling_index_spec root p l1 c l2 :
  wf root -> In p (iter root) -> children p = l1 ++ c :: l2 ->
  has_tag mei_measure c = true ->
  sibling_index root (eid c) =
  Some (List.length (filter (has_tag mei_measure) l1)).
Proof.
  intros Hwf Hp Hch Ht. unfold sibling_index.
  assert (Hcp : In c (children p)) by (rewrite Hch; apply in_elt).
  destruct (find_parent root (eid c)) as [p'|] eqn:Hf.
  - destruct (find_some _ _ Hf) as [Hp' Hpc].
    apply existsb_exists in Hpc as (c' & Hc' & Heq).
    apply Nat.eqb_eq in Heq.
    assert (p' = p) by (eapply parent_unique; eauto). subst p'.
    unfold findall_child. rewrite Hch, filter_app. simpl. rewrite Ht.
    rewrite list_index_prefix; trivial.
    intros d Hd Hde. apply filter_In in Hd as [Hd _].
    pose proof (wf_children_ids root p Hwf Hp) as Hnd.
    rewrite Hch, map_app in Hnd. simpl in Hnd.
    apply NoDup_remove_2 in Hnd. apply Hnd, in_or_app. left.
    rewrite <- Hde. now apply in_map.
  - exfalso. pose proof (find_none _ _ Hf p Hp) as Hh.
    unfold has_child in Hh.
    assert (existsb (fun c0 => Nat.eqb (eid c0) (eid c)) (children p) = true).
    { apply existsb_exists. exists c. split; trivial. apply Nat.eqb_refl. }
    congruence.
Qed.

Lemma measure_write_at root p l1 c l2 a :
  wf root -> In p (iter root) -> children p = l1 ++ c :: l2 ->
  measure_write int_ok root (eid c) a =
  if has_tag mei_measure c
  then repair_n int_ok (List.length (filter (has_tag mei_measure) l1)) a
  else a.
Proof.
  intros Hwf Hp Hch. unfold measure_write.
  assert (Hc : In c (descendants root)).
  { apply (in_children_descendants root p); trivial.
    rewrite Hch. apply in_elt. }
  rewrite mem_refs; trivial.
  destruct (has_tag mei_measure c) eqn:Ht; trivial.
  now rewrite (sibling_index_spec root p l1 c l2).
Qed.

Lemma measure_pass_write root :
  wf root ->
  measure_pass int_ok root =
  Ok (map_attrib_by_id (measure_write int_ok root) root).
Proof.
  intros Hwf. unfold measure_pass. fold (refs mei_measure root).
  rewrite (for_each_measure_step int_ok root); trivial.
  - rewrite (fold_modify
               (fun x => repair_at int_ok (sibling_index root x)));
      [reflexivity | now apply NoDup_refs].
  - intros x m Hx Hm. apply node_at_some in Hm as [Hm Hxm].
    unfold refs, findall_desc in Hx.
    apply in_map_iff in Hx as (d & Hd & Hin).
    apply filter_In in Hin as [Hin Hdt].
    assert (m = d).
    { apply (node_unique root); trivial; [|congruence].
      now apply descendants_iter. }
    now subst.
Qed.

Lemma repair_below_write root :
  wf root ->
  map_attrib_by_id (measure_write int_ok root) root =
  repair_below int_ok root.
Proof.
  intros Hwf. rewrite map_attrib_repair.
  - unfold measure_write at 1. rewrite mem_refs_root; trivial.
    apply with_attrib_id.
  - intros p l1 c l2 a Hp Hch. now apply (measure_write_at root p l1 c l2).
Qed.

(** The measure loop computes [repair_below]. *)
Lemma measure_pass_spec root :
  wf root -> measure_pass int_ok root = Ok (repair_below int_ok root).
Proof.
  intros Hwf. rewrite measure_pass_write; trivial.
  now rewrite repair_below_write.
Qed.

End RepairSpec.

Lemma wf_prune root : wf root -> wf (prune root).
Proof.
  intros Hwf.
  rewrite <- (remove_set_prune (fun i => mem i (refs mei_verse root))).
  - now apply remove_set_wf.
  - intros c Hc. now apply mem_refs.
Qed.

Section SanitizeSpec.

Variable int_ok : string -> bool.

(** The three loops on a parsed tree compute [sanitized], and none of
    them raises. *)
Lemma sanitize_tree_spec root :
  wf root -> sanitize_tree int_ok root = Ok (sanitized int_ok root).
Proof.
  intros Hwf. unfold sanitize_tree, sanitized.
  rewrite syl_pass_spec; trivial. simpl.
  rewrite verse_pass_spec; [|now apply wf_norm_below]. simpl.
  apply measure_pass_spec. now apply wf_prune, wf_norm_below.
Qed.

End SanitizeSpec.


(** ** Where the elements of the output come from *)

Lemma iter_eq e : iter e = e :: descendants e.
Proof. now destruct e. Qed.

Lemma eid_prune e : eid (prune e) = eid e.
Proof. now destruct e. Qed.

Lemma tag_prune e : tag (prune e) = tag e.
Proof. now destruct e. Qed.

Lemma attrib_prune e : attrib (prune e) = attrib e.
Proof. now destruct e. Qed.

Lemma descendants_prune_origin e c2 :
  In c2 (descendants (prune e)) ->
  exists c1, In c1 (descendants e) /\ c2 = prune c1 /\
             has_tag mei_verse c1 = false.
Proof.
  revert c2. induction e as [i t a tx tl cs IH] using Element_ind.
  intros c2. rewrite prune_eq. unfold descendants at 1. simpl children.
  intros Hin. apply in_flat_map in Hin as (c' & Hc' & Hin).
  apply in_map_iff in Hc' as (c & <- & Hc).
  apply filter_In in Hc as [Hc Hnv]. apply negb_true_iff in Hnv.
  rewrite iter_eq in Hin. destruct Hin as [<-|Hin].
  - exists c. repeat split; trivial.
    apply (descendants_child (Elem i t a tx tl cs) c); trivial.
    apply in_iter_self.
  - rewrite Forall_forall in IH.
    destruct (IH c Hc c2 Hin) as (c1 & Hc1 & -> & Hv).
    exists c1. repeat split; trivial.
    apply (descendants_child (Elem i t a tx tl cs) c); trivial.
    now apply descendants_iter.
Qed.

Lemma descendants_map_attrib h e :
  descendants (map_attrib_by_id h e) = map (map_attrib_by_id h) (descendants e).
Proof.
  pose proof (iter_map_attrib h e) as H.
  rewrite !iter_eq in H. simpl in H. now injection H.
Qed.

Lemma filter_has_tag_map_attrib h t l :
  filter (has_tag t) (map (map_attrib_by_id h) l) =
  map (map_attrib_by_id h) (filter (has_tag t) l).
Proof.
  induction l as [|c l IH]; simpl; trivial.
  unfold has_tag at 1. rewrite tag_map_attrib. fold (has_tag t c).
  destruct (has_tag t c); simpl; now rewrite IH.
Qed.

(** Every descendant is a child of some element of the tree. *)
Lemma descendants_position r c :
  In c (descendants r) ->
  exists p l1 l2, In p (iter r) /\ children p = l1 ++ c :: l2.
Proof.
  induction r as [i t a tx tl cs IH] using Element_ind.
  unfold descendants. simpl children. intros Hin.
  apply in_flat_map in Hin as (c0 & Hc0 & Hin).
  rewrite iter_eq in Hin. destruct Hin as [<-|Hin].
  - apply in_split in Hc0 as (l1 & l2 & ->).
    exists (Elem i t a tx tl (l1 ++ c0 :: l2)), l1, l2.
    split; [apply in_iter_self | reflexivity].
  - rewrite Forall_forall in IH.
    destruct (IH c0 Hc0 Hin) as (p & l1 & l2 & Hp & Hch).
    exists p, l1, l2. split; trivial.
    eapply iter_trans; [|exact Hp].
    now apply (child_in_iter (Elem i t a tx tl cs)).
Qed.

Lemma measure_not_syl c :
  has_tag mei_measure c = true -> has_tag mei_syl c = false.
Proof.
  unfold has_tag. intros H. apply String.eqb_eq in H. now rewrite H.
Qed.

Lemma measure_not_verse c :
  has_tag mei_measure c = true -> has_tag mei_verse c = false.
Proof.
  unfold has_tag. intros H. apply String.eqb_eq in H. now rewrite H.
Qed.

Lemma syl_not_measure c :
  has_tag mei_syl c = true -> has_tag mei_measure c = false.
Proof.
  unfold has_tag. intros H. apply String.eqb_eq in H. now rewrite H.
Qed.

Lemma has_tag_eq t c c' : tag c = tag c' -> has_tag t c = has_tag t c'.
Proof. unfold has_tag. now intros ->. Qed.

Section Origin.

Variable int_ok : string -> bool.

(** The root is never written to. *)
Lemma sanitized_root root :
  eid (sanitized int_ok root) = eid root /\
  tag (sanitized int_ok root) = tag root /\
  attrib (sanitized int_ok root) = attrib root /\
  text (sanitized int_ok root) = text root /\
  tail (sanitized int_ok root) = tail root.
Proof. now destruct root. Qed.

(** An element of the output, found at some place among the children of its
    parent, is an element of the input that is not a verse; it has the
    attributes of that element, except for a repaired number or a normalised
    marker. *)
Lemma sanitized_origin root p' l1' c' l2' :
  wf root ->
  In p' (iter (sanitized int_ok root)) ->
  children p' = l1' ++ c' :: l2' ->
  exists c0,
    In c0 (descendants root) /\ eid c0 = eid c' /\ tag c0 = tag c' /\
    has_tag mei_verse c0 = false /\
    attrib c' =
    final_attrib int_ok (List.length (filter (has_tag mei_measure) l1')) c0.
Proof.
  intros Hwf Hp' Hch'. unfold sanitized in Hp'.
  pose proof (wf_norm_below root Hwf) as Hwf1.
  pose proof (wf_prune _ Hwf1) as Hwf2.
  set (r2 := prune (norm_below root)) in *.
  rewrite <- (repair_below_write int_ok r2 Hwf2) in Hp'.
  rewrite iter_map_attrib in Hp'.
  apply in_map_iff in Hp' as (p2 & <- & Hp2).
  rewrite children_map_attrib in Hch'.
  apply map_eq_app in Hch' as (l1 & rest & Hch & <- & Hrest).
  apply map_eq_cons in Hrest as (c2 & l2 & -> & <- & <-).
  assert (Hc2 : In c2 (descendants r2)).
  { apply (in_children_descendants r2 p2); trivial.
    rewrite Hch. apply in_elt. }
  destruct (descendants_prune_origin _ _ Hc2) as (c1 & Hc1 & -> & Hv1).
  rewrite <- (norm_below_write root Hwf), descendants_map_attrib in Hc1.
  apply in_map_iff in Hc1 as (c0 & <- & Hc0).
  exists c0. rewrite eid_map_attrib, tag_map_attrib, !eid_prune, !tag_prune,
    !eid_map_attrib, !tag_map_attrib.
  repeat split; trivial.
  - unfold has_tag in *. now rewrite tag_map_attrib in Hv1.
  - rewrite attrib_map_attrib.
    rewrite (measure_write_at int_ok r2 p2 l1 _ l2); trivial.
    rewrite filter_has_tag_map_attrib, length_map.
    unfold final_attrib.
    rewrite (has_tag_eq mei_measure _ c0)
      by now rewrite tag_prune, tag_map_attrib.
    rewrite attrib_prune, attrib_map_attrib. unfold syl_write.
    rewrite mem_refs; trivial.
    destruct (has_tag mei_measure c0) eqn:Hm; trivial.
    now rewrite (measure_not_syl c0 Hm).
Qed.

End Origin.

Example sample_doc_sanitized :
  sanitize_tree py_int_ok sample_doc = Ok sample_out.
Proof. vm_compute. reflexivity. Qed.

Example no_lyrics_doc_sanitized :
  sanitize_tree py_int_ok no_lyrics_doc = Ok no_lyrics_out.
Proof. vm_compute. reflexivity. Qed.

Example py_int_ok_examples :
  map py_int_ok ["7"; " 12 "; "-3"; "+1_000"; "007"; ""; "abc"; "1a"; "1__0";
                 "_1"; "1_"; "- 1"; "1.5"; "+"; "1 2"; " "]
  = [true; true; true; true; true; false; false; false; false;
     false; false; false; false; false; false; false].
Proof. vm_compute. reflexivity. Qed.

(** ** Attributes *)

Lemma attr_get_set_same k v a : attr_get k (attr_set k v a) = Some v.
Proof.
  induction a as [|[k' v'] a IH]; simpl.
  - now rewrite String.eqb_refl.
  - destruct (String.eqb k' k) eqn:E; simpl.
    + now rewrite String.eqb_refl.
    + now rewrite E.
Qed.


Lemma wordpos_ok_normalize a : wordpos_ok (normalize_wordpos a) = true.
Proof.
  unfold normalize_wordpos, wordpos_ok.
  destruct (attr_get "wordpos" a) as [w|] eqn:Hw.
  - destruct (existsb (String.eqb w) ["s"; "i"; "m"; "t"]) eqn:Hc.
    + now rewrite Hw.
    + destruct (String.eqb w "u"); now rewrite attr_get_set_same.
  - now rewrite attr_get_set_same.
Qed.

Lemma normalize_wordpos_ok a : wordpos_ok a = true -> normalize_wordpos a = a.
Proof.
  unfold normalize_wordpos, wordpos_ok.
  destruct (attr_get "wordpos" a) as [w|]; [|discriminate].
  now intros ->.
Qed.


Section Numbers.

Variable int_ok : string -> bool.

Lemma repair_n_ok k a : number_ok int_ok a = true -> repair_n int_ok k a = a.
Proof.
  unfold number_ok, repair_n.
  destruct (attr_get "n" a) as [num|]; trivial.
  destruct (truthy num); simpl; trivial.
  now intros ->.
Qed.

Lemma number_ok_repair_n k a :
  int_ok (str k) = true -> number_ok int_ok (repair_n int_ok k a) = true.
Proof.
  intros Hk. unfold repair_n.
  destruct (attr_get "n" a) as [num|] eqn:Hn.
  - destruct (truthy num && negb (int_ok num)) eqn:Hc.
    + unfold number_ok. rewrite attr_get_set_same, Hk. apply orb_true_r.
    + unfold number_ok. rewrite Hn.
      destruct (truthy num), (int_ok num); trivial. discriminate.
  - unfold number_ok. now rewrite Hn.
Qed.


Lemma repair_n_unparsed k a num :
  attr_get "n" a = Some num -> num <> "" -> int_ok num = false ->
  attr_get "n" (repair_n int_ok k a) = Some (str k).
Proof.
  intros Hn Hne Hint. unfold repair_n. rewrite Hn, Hint.
  unfold truthy. apply String.eqb_neq in Hne. rewrite Hne. simpl.
  apply attr_get_set_same.
Qed.

Lemma repair_n_empty k a :
  attr_get "n" a = Some "" -> repair_n int_ok k a = a.
Proof. intros Hn. unfold repair_n. now rewrite Hn. Qed.

(** ** Trees that the passes leave alone *)

Lemma wf_repair_below t : wf t -> wf (repair_below int_ok t).
Proof.
  intros Hwf. rewrite <- repair_below_write; trivial.
  now apply wf_map_attrib.
Qed.


Lemma prune_id t :
  wf t ->
  (forall c, In c (descendants t) -> has_tag mei_verse c = false) ->
  prune t = t.
Proof.
  intros Hwf H.
  rewrite <- (remove_set_prune (fun i => mem i (refs mei_verse t))).
  - apply remove_set_id. intros p c Hp Hc.
    assert (Hd : In c (descendants t))
      by now apply (in_children_descendants t p).
    rewrite mem_refs; auto.
  - intros c Hc. now apply mem_refs.
Qed.

Lemma norm_below_id t :
  wf t ->
  (forall c, In c (descendants t) -> has_tag mei_syl c = true ->
             normalize_wordpos (attrib c) = attrib c) ->
  norm_below t = t.
Proof.
  intros Hwf H. rewrite <- norm_below_write; trivial.
  apply map_attrib_by_id_id. intros d Hd. unfold syl_write.
  rewrite iter_eq in Hd. destruct Hd as [<-|Hd].
  - now rewrite mem_refs_root.
  - rewrite mem_refs; trivial.
    destruct (has_tag mei_syl d) eqn:Hs; auto.
Qed.

Lemma repair_below_id t :
  wf t ->
  (forall p l1 c l2,
      In p (iter t) -> children p = l1 ++ c :: l2 ->
      has_tag mei_measure c = true ->
      repair_n int_ok (List.length (filter (has_tag mei_measure) l1))
               (attrib c) = attrib c) ->
  repair_below int_ok t = t.
Proof.
  intros Hwf H. rewrite <- repair_below_write; trivial.
  apply map_attrib_by_id_id. intros d Hd.
  rewrite iter_eq in Hd. destruct Hd as [<-|Hd].
  - unfold measure_write. now rewrite mem_refs_root.
  - destruct (descendants_position t d Hd) as (p & l1 & l2 & Hp & Hch).
    rewrite (measure_write_at int_ok t p l1 d l2); trivial.
    destruct (has_tag mei_measure d) eqn:Hm; trivial.
    now apply (H p l1 d l2).
Qed.

End Numbers.

(** ** Structure *)

Lemma filter_nil_iff (A : Type) (f : A -> bool) (l : list A) :
  filter f l = [] <-> forall x, In x l -> f x = false.
Proof.
  split.
  - intros H x Hx. destruct (f x) eqn:E; trivial.
    assert (Hin : In x (filter f l)) by (apply filter_In; now split).
    rewrite H in Hin. contradiction.
  - intros H. induction l as [|y l IH]; simpl; trivial.
    rewrite (H y (or_introl eq_refl)). apply IH.
    intros x Hx. apply H. now right.
Qed.

Lemma skeleton_map_attrib h t : skeleton (map_attrib_by_id h t) = skeleton t.
Proof.
  induction t as [i t a tx tl cs IH] using Element_ind. simpl. f_equal.
  rewrite map_map. apply map_ext_in. rewrite Forall_forall in IH. auto.
Qed.

Lemma prune_map_attrib h t :
  prune (map_attrib_by_id h t) = map_attrib_by_id h (prune t).
Proof.
  induction t as [i t a tx tl cs IH] using Element_ind.
  simpl map_attrib_by_id. rewrite !prune_eq. simpl. f_equal.
  rewrite Forall_forall in IH.
  induction cs as [|c cs IHcs]; simpl; trivial.
  unfold has_tag at 1. rewrite tag_map_attrib. fold (has_tag mei_verse c).
  destruct (has_tag mei_verse c); simpl.
  - apply IHcs. intros x Hx. apply IH. now right.
  - f_equal.
    + apply IH. now left.
    + apply IHcs. intros x Hx. apply IH. now right.
Qed.








Section Outcome.

Variable int_ok : string -> bool.

Lemma sanitized_descendant_origin root c' :
  wf root -> In c' (descendants (sanitized int_ok root)) ->
  exists k c0,
    In c0 (descendants root) /\ eid c0 = eid c' /\ tag c0 = tag c' /\
    has_tag mei_verse c0 = false /\ attrib c' = final_attrib int_ok k c0.
Proof.
  intros Hwf Hc'.
  destruct (descendants_position _ _ Hc') as (p' & l1' & l2' & Hp' & Hch').
  destruct (sanitized_origin int_ok root p' l1' c' l2' Hwf Hp' Hch')
    as (c0 & H).
  eauto.
Qed.

Lemma sanitized_no_verse root :
  wf root -> findall_desc mei_verse (sanitized int_ok root) = [].
Proof.
  intros Hwf. apply filter_nil_iff. intros c' Hc'.
  destruct (sanitized_descendant_origin root c' Hwf Hc')
    as (k & c0 & _ & _ & Ht & Hv & _).
  now rewrite <- (has_tag_eq mei_verse c0 c' Ht).
Qed.

Lemma skeleton_sanitized root :
  wf root -> skeleton (sanitized int_ok root) = skeleton (prune root).
Proof.
  intros Hwf. unfold sanitized.
  rewrite <- repair_below_write by now apply wf_prune, wf_norm_below.
  rewrite skeleton_map_attrib.
  rewrite <- norm_below_write by trivial.
  now rewrite prune_map_attrib, skeleton_map_attrib.
Qed.

(** C1 (amended).  Sanitation of a parsed document returns a tree with no
    verse element below its root: the tree is the input with every child
    that is a verse detached, at every level, and with no other change to
    its elements, their tags, their text or their order. *)
Theorem verses_detached root :
  wf root ->
  exists r,
    sanitize_tree int_ok root = Ok r /\
    findall_desc mei_verse r = [] /\
    skeleton r = skeleton (prune root).
Proof.
  intros Hwf. exists (sanitized int_ok root).
  split; [now apply sanitize_tree_spec|].
  split; [now apply sanitized_no_verse | now apply skeleton_sanitized].
Qed.

End Outcome.

Ltac prove_wf :=
  unfold wf; vm_compute;
  repeat (constructor; [simpl; intuition discriminate|]); constructor.

Lemma wf_sample_doc : wf sample_doc.
Proof. prove_wf. Qed.

Lemma wf_sample_out : wf sample_out.
Proof. prove_wf. Qed.

Lemma wf_root_verse_doc : wf root_verse_doc.
Proof. prove_wf. Qed.

Lemma wf_root_syl_doc : wf root_syl_doc.
Proof. prove_wf. Qed.

Lemma wf_empty_number_doc : wf empty_number_doc.
Proof. prove_wf. Qed.

Lemma wf_no_lyrics_doc : wf no_lyrics_doc.
Proof. prove_wf. Qed.

Lemma verses_detached_witness :
  wf sample_doc /\
  exists r,
    sanitize_tree py_int_ok sample_doc = Ok r /\
    findall_desc mei_verse r = [] /\
    skeleton r = skeleton (prune sample_doc).
Proof.
  split; [exact wf_sample_doc|].
  exact (verses_detached py_int_ok sample_doc wf_sample_doc).
Defined.

(** C1, as stated, fails on a document whose root element is a verse: the
    root has no parent, the search for verses starts below it, and the tree
    that is returned still has the verse. *)
Lemma root_verse_kept :
  wf root_verse_doc /\
  exists r,
    sanitize_tree py_int_ok root_verse_doc = Ok r /\
    existsb (has_tag mei_verse) (iter r) = true.
Proof.
  split; [exact wf_root_verse_doc|].
  eexists. split; [vm_compute; reflexivity|]. vm_compute. reflexivity.
Qed.

Lemma ids_skeleton t : ids (skeleton t) = ids t.
Proof.
  induction t as [i t a tx tl cs IH] using Element_ind.
  unfold ids. simpl. f_equal. rewrite Forall_forall in IH.
  induction cs as [|c cs IHcs]; simpl; trivial.
  rewrite !map_app. f_equal.
  - apply (IH c). now left.
  - apply IHcs. intros x Hx. apply IH. now right.
Qed.

Section MeasureClaims.

Variable int_ok : string -> bool.

Lemma ids_sanitized root :
  wf root -> ids (sanitized int_ok root) = ids (prune root).
Proof.
  intros Hwf.
  now rewrite <- ids_skeleton, skeleton_sanitized, ids_skeleton.
Qed.

Lemma sanitized_same_object root m p' l1' c' l2' :
  wf root -> In m (iter root) ->
  In p' (iter (sanitized int_ok root)) -> children p' = l1' ++ c' :: l2' ->
  eid c' = eid m ->
  attrib c' =
  final_attrib int_ok (List.length (filter (has_tag mei_measure) l1')) m.
Proof.
  intros Hwf Hm Hp' Hch' Heq.
  destruct (sanitized_origin int_ok root p' l1' c' l2' Hwf Hp' Hch')
    as (c0 & Hc0 & He & _ & _ & Ha).
  assert (c0 = m).
  { apply (node_unique root); trivial; [|congruence].
    now apply descendants_iter. }
  now subst.
Qed.

(** C3 (amended).  A measure below the root whose number is present, not
    empty and not accepted by [int] is in the output unless it was removed
    with a verse, and there it has the decimal string of its zero-based
    position among the measures that are children of the same parent.  The
    root element is never examined. *)
Theorem measure_number_repaired root :
  wf root ->
  exists r,
    sanitize_tree int_ok root = Ok r /\
    forall m num,
      In m (descendants root) -> has_tag mei_measure m = true ->
      attr_get "n" (attrib m) = Some num -> num <> "" ->
      int_ok num = false ->
      (In (eid m) (ids (prune root)) ->
       exists p' l1' c' l2',
         In p' (iter r) /\ children p' = l1' ++ c' :: l2' /\
         eid c' = eid m) /\
      (forall p' l1' c' l2',
          In p' (iter r) -> children p' = l1' ++ c' :: l2' ->
          eid c' = eid m ->
          attr_get "n" (attrib c') =
          Some (str (List.length (filter (has_tag mei_measure) l1')))).
Proof.
  intros Hwf. exists (sanitized int_ok root).
  split; [now apply sanitize_tree_spec|].
  intros m num Hm Ht Hn Hne Hint. split.
  - intros Hin. rewrite <- (ids_sanitized root Hwf) in Hin.
    unfold ids in Hin. apply in_map_iff in Hin as (c' & He & Hc').
    rewrite iter_eq in Hc'. destruct Hc' as [<-|Hc'].
    + exfalso. apply (wf_not_own_descendant root m Hwf Hm).
      rewrite <- He. apply (sanitized_root int_ok root).
    + destruct (descendants_position _ _ Hc')
        as (p' & l1' & l2' & Hp' & Hch').
      now exists p', l1', c', l2'.
  - intros p' l1' c' l2' Hp' Hch' Heq.
    rewrite (sanitized_same_object root m p' l1' c' l2'); trivial;
      [|now apply descendants_iter].
    unfold final_attrib. rewrite Ht.
    now apply (repair_n_unparsed int_ok _ _ num).
Qed.

Lemma sanitized_same_object_iter root m c' :
  wf root -> In m (iter root) -> In c' (iter (sanitized int_ok root)) ->
  eid c' = eid m ->
  c' = sanitized int_ok root /\ m = root \/
  exists k, attrib c' = final_attrib int_ok k m.
Proof.
  intros Hwf Hm Hc' Heq. rewrite iter_eq in Hc'. destruct Hc' as [<-|Hc'].
  - left. split; trivial.
    apply (node_unique root); trivial; [apply in_iter_self|].
    rewrite <- Heq. apply (sanitized_root int_ok root).
  - right.
    destruct (descendants_position _ _ Hc') as (p' & l1' & l2' & Hp' & Hch').
    eexists. now apply (sanitized_same_object root m p' l1' c' l2').
Qed.

(** C9.  A measure whose number is the empty string comes out of the
    sanitizer with the attributes it had: line 50 takes the empty string for
    no number, whatever [int] would say of it. *)
Theorem empty_number_left_unchanged root :
  wf root ->
  exists r,
    sanitize_tree int_ok root = Ok r /\
    forall m c',
      In m (iter root) -> has_tag mei_measure m = true ->
      attr_get "n" (attrib m) = Some "" ->
      In c' (iter r) -> eid c' = eid m ->
      attrib c' = attrib m.
Proof.
  intros Hwf. exists (sanitized int_ok root).
  split; [now apply sanitize_tree_spec|].
  intros m c' Hm Ht Hn Hc' Heq.
  destruct (sanitized_same_object_iter root m c' Hwf Hm Hc' Heq)
    as [[-> ->]|[k ->]].
  - apply (sanitized_root int_ok root).
  - unfold final_attrib. rewrite Ht. now apply repair_n_empty.
Qed.

(** C6 (amended).  After sanitation every measure below the root has no
    number, an empty number, or a number that [int] accepts; a measure whose
    number was already of that kind keeps its attributes. *)
Theorem measure_numbers_after_sanitation root :
  wf root ->
  (forall k, int_ok (str k) = true) ->
  exists r,
    sanitize_tree int_ok root = Ok r /\
    (forall c', In c' (descendants r) -> has_tag mei_measure c' = true ->
                number_ok int_ok (attrib c') = true) /\
    (forall m c',
        In m (iter root) -> has_tag mei_measure m = true ->
        number_ok int_ok (attrib m) = true ->
        In c' (iter r) -> eid c' = eid m ->
        attrib c' = attrib m).
Proof.
  intros Hwf Hstr. exists (sanitized int_ok root).
  split; [now apply sanitize_tree_spec|]. split.
  - intros c' Hc' Ht.
    destruct (sanitized_descendant_origin int_ok root c' Hwf Hc')
      as (k & c0 & _ & _ & Htag & _ & ->).
    unfold final_attrib.
    rewrite (has_tag_eq mei_measure c0 c' Htag), Ht.
    now apply number_ok_repair_n.
  - intros m c' Hm Ht Hok Hc' Heq.
    destruct (sanitized_same_object_iter root m c' Hwf Hm Hc' Heq)
      as [[-> ->]|[k ->]].
    + apply (sanitized_root int_ok root).
    + unfold final_attrib. rewrite Ht. now apply repair_n_ok.
Qed.

End MeasureClaims.

(** The decimal string of a natural number is accepted by [int]. *)
Lemma int_scan_digits d :
  int_scan IntDigit (NilEmpty.string_of_uint d) = true.
Proof. induction d; simpl; trivial. Qed.

Lemma py_int_ok_str k : py_int_ok (str k) = true.
Proof.
  unfold py_int_ok, str.
  rewrite <- (DecimalNat.Unsigned.of_to k) at 1.
  rewrite DecimalNat.Unsigned.to_of.
  generalize (Nat.to_uint k). intros d. unfold Decimal.unorm.
  destruct (Decimal.nzhead d) eqn:E; simpl; trivial;
    apply int_scan_digits.
Qed.

Lemma measure_number_repaired_witness :
  wf sample_doc /\
  exists r,
    sanitize_tree py_int_ok sample_doc = Ok r /\
    (exists p' l1' c' l2',
        In p' (iter r) /\ children p' = l1' ++ c' :: l2' /\
        eid c' = eid sample_m3) /\
    In sample_section_out (iter r) /\
    attr_get "n" (attrib sample_m3_out) = Some "2".
Proof.
  split; [exact wf_sample_doc|].
  destruct (measure_number_repaired py_int_ok sample_doc wf_sample_doc)
    as (r & Hr & H).
  exists r. split; [exact Hr|].
  assert (r = sample_out)
    by (rewrite sample_doc_sanitized in Hr; now injection Hr).
  subst r.
  assert (Hm : In sample_m3 (descendants sample_doc)) by (simpl; tauto).
  assert (Hne : "abc" <> "") by discriminate.
  destruct (H sample_m3 "abc" Hm eq_refl eq_refl Hne eq_refl) as [Hin Hn].
  assert (Hsec : In sample_section_out (iter sample_out))
    by (right; now left).
  split; [|split; [exact Hsec|]].
  - apply Hin. vm_compute. tauto.
  - exact (Hn sample_section_out [sample_m1_out; sample_staff; sample_m2]
              sample_m3_out [sample_m4] Hsec eq_refl eq_refl).
Defined.

Lemma empty_number_left_unchanged_witness :
  wf sample_doc /\
  exists r,
    sanitize_tree py_int_ok sample_doc = Ok r /\
    In sample_m2 (iter r) /\ attrib sample_m2 = [("n", "")] /\
    py_int_ok "" = false.
Proof.
  split; [exact wf_sample_doc|].
  destruct (empty_number_left_unchanged py_int_ok sample_doc wf_sample_doc)
    as (r & Hr & H).
  exists r. split; [exact Hr|].
  assert (r = sample_out)
    by (rewrite sample_doc_sanitized in Hr; now injection Hr).
  subst r.
  assert (Hin : In sample_m2 (iter sample_out)) by (simpl; tauto).
  split; [exact Hin|]. split; [|reflexivity].
  apply (H sample_m2 sample_m2); trivial. simpl. tauto.
Defined.

Lemma measure_numbers_after_sanitation_witness :
  wf sample_doc /\ (forall k, py_int_ok (str k) = true) /\
  exists r,
    sanitize_tree py_int_ok sample_doc = Ok r /\
    forallb (fun c => negb (has_tag mei_measure c)
                      || number_ok py_int_ok (attrib c))
            (descendants r) = true.
Proof.
  split; [exact wf_sample_doc|]. split; [exact py_int_ok_str|].
  destruct (measure_numbers_after_sanitation py_int_ok sample_doc
              wf_sample_doc py_int_ok_str) as (r & Hr & H & _).
  exists r. split; [exact Hr|].
  apply forallb_forall. intros c Hc.
  destruct (has_tag mei_measure c) eqn:Ht; simpl; trivial.
  now apply H.
Defined.

(** C3, as stated, fails on a measure whose number is the empty string: it
    is present and [int] rejects it, yet it is not replaced by the position
    of the measure, which is 0 here.  It also fails on a root element that
    is a measure: its number is not a number and stays what it was. *)
Lemma measure_number_not_repaired :
  (wf empty_number_doc /\
   py_int_ok "" = false /\
   exists r p c,
     sanitize_tree py_int_ok empty_number_doc = Ok r /\
     In p (iter r) /\ children p = [] ++ c :: [] /\
     has_tag mei_measure c = true /\
     attr_get "n" (attrib c) = Some "" /\
     attr_get "n" (attrib c) <>
     Some (str (List.length (filter (has_tag mei_measure) [])))) /\
  (wf root_measure_doc /\
   py_int_ok "abc" = false /\
   exists r,
     sanitize_tree py_int_ok root_measure_doc = Ok r /\
     has_tag mei_measure r = true /\
     attr_get "n" (attrib r) = Some "abc" /\
     forall k, attr_get "n" (attrib r) <> Some (str k)).
Proof.
  split.
  - split; [exact wf_empty_number_doc|]. split; [reflexivity|].
    exists empty_number_doc, empty_number_doc,
           (E 1 "measure" [("n", "")] []).
    split; [vm_compute; reflexivity|].
    split; [now left|].
    repeat split; try discriminate.
  - split; [prove_wf|]. split; [reflexivity|].
    exists root_measure_doc.
    split; [vm_compute; reflexivity|]. repeat split.
    intros k [= Hk].
    pose proof (py_int_ok_str k) as Hok. rewrite <- Hk in Hok.
    discriminate Hok.
Qed.

(** C6, as stated, fails in two places: a measure with an empty number keeps
    it, and [int] rejects the empty string; and a measure that is the root
    of the document is never looked at. *)
Lemma unparsable_numbers_survive :
  (wf empty_number_doc /\
   exists r c,
     sanitize_tree py_int_ok empty_number_doc = Ok r /\
     In c (iter r) /\ has_tag mei_measure c = true /\
     attr_get "n" (attrib c) = Some "" /\ py_int_ok "" = false) /\
  (wf (E 0 "measure" [("n", "abc")] []) /\
   exists r,
     sanitize_tree py_int_ok (E 0 "measure" [("n", "abc")] []) = Ok r /\
     has_tag mei_measure r = true /\
     attr_get "n" (attrib r) = Some "abc" /\ py_int_ok "abc" = false).
Proof.
  split.
  - split; [exact wf_empty_number_doc|].
    exists empty_number_doc, (E 1 "measure" [("n", "")] []).
    split; [vm_compute; reflexivity|].
    split; [right; now left|]. repeat split.
  - split; [prove_wf|].
    eexists. split; [vm_compute; reflexivity|]. repeat split.
Qed.

Section SyllableClaims.

Variable int_ok : string -> bool.

Lemma norm_below_descendant root c :
  wf root -> In c (descendants (norm_below root)) ->
  exists c0, In c0 (descendants root) /\ eid c0 = eid c /\ tag c0 = tag c /\
             attrib c = if has_tag mei_syl c0
                        then normalize_wordpos (attrib c0) else attrib c0.
Proof.
  intros Hwf Hc.
  rewrite <- (norm_below_write root Hwf), descendants_map_attrib in Hc.
  apply in_map_iff in Hc as (c0 & <- & Hc0).
  exists c0. rewrite eid_map_attrib, tag_map_attrib, attrib_map_attrib.
  repeat split; trivial. unfold syl_write. now rewrite mem_refs.
Qed.

(** C8 (amended).  The syllable loop gives every syllable below the root
    one of the four codes of line 29, and the syllables that are still in
    the tree after sanitation have it: a code of the four is left as it is,
    [u] becomes [i], and anything else, no marker included, becomes [s]. *)
Theorem syllable_markers_normalised root :
  wf root ->
  (exists r1,
      syl_pass root = Ok r1 /\
      forall c, In c (descendants r1) -> has_tag mei_syl c = true ->
                wordpos_ok (attrib c) = true) /\
  (exists r,
      sanitize_tree int_ok root = Ok r /\
      (forall c', In c' (descendants r) -> has_tag mei_syl c' = true ->
                  wordpos_ok (attrib c') = true) /\
      (forall s c',
          In s (iter root) -> has_tag mei_syl s = true ->
          In c' (descendants r) -> eid c' = eid s ->
          attrib c' = normalize_wordpos (attrib s))) /\
  (forall a w, attr_get "wordpos" a = Some w ->
               In w ["s"; "i"; "m"; "t"] -> normalize_wordpos a = a) /\
  (forall a, attr_get "wordpos" a = Some "u" ->
             attr_get "wordpos" (normalize_wordpos a) = Some "i") /\
  (forall a, (forall w, attr_get "wordpos" a = Some w ->
                        ~ In w ["s"; "i"; "m"; "t"; "u"]) ->
             attr_get "wordpos" (normalize_wordpos a) = Some "s").
Proof.
  intros Hwf. split; [|split; [|split; [|split]]].
  - exists (norm_below root). split; [now apply syl_pass_spec|].
    intros c Hc Hs.
    destruct (norm_below_descendant root c Hwf Hc) as (c0 & _ & _ & Ht & ->).
    rewrite (has_tag_eq mei_syl c0 c Ht), Hs.
    apply wordpos_ok_normalize.
  - exists (sanitized int_ok root).
    split; [now apply sanitize_tree_spec|]. split.
    + intros c' Hc' Hs.
      destruct (sanitized_descendant_origin int_ok root c' Hwf Hc')
        as (k & c0 & _ & _ & Ht & _ & ->).
      unfold final_attrib.
      rewrite (has_tag_eq mei_syl c0 c' Ht) in *.
      rewrite (has_tag_eq mei_measure c0 c' Ht).
      rewrite (syl_not_measure c' Hs), Hs. apply wordpos_ok_normalize.
    + intros s c' Hs Ht Hc' Heq.
      destruct (descendants_position _ _ Hc') as (p' & l1' & l2' & Hp' & Hch').
      rewrite (sanitized_same_object int_ok root s p' l1' c' l2'); trivial.
      unfold final_attrib. now rewrite (syl_not_measure s Ht), Ht.
  - intros a w Hw Hin. apply normalize_wordpos_ok.
    unfold wordpos_ok. rewrite Hw.
    apply existsb_exists. exists w. split; trivial. apply String.eqb_refl.
  - intros a Hw. unfold normalize_wordpos. rewrite Hw. simpl.
    apply attr_get_set_same.
  - intros a Hw. unfold normalize_wordpos.
    destruct (attr_get "wordpos" a) as [w|] eqn:E;
      [|apply attr_get_set_same].
    specialize (Hw w eq_refl).
    destruct (existsb (String.eqb w) ["s"; "i"; "m"; "t"]) eqn:Hc.
    + exfalso. apply Hw. apply existsb_exists in Hc as (x & Hx & Hxw).
      apply String.eqb_eq in Hxw. subst x. simpl in *. tauto.
    + destruct (String.eqb w "u") eqn:Hu; [|apply attr_get_set_same].
      exfalso. apply Hw. apply String.eqb_eq in Hu. subst. simpl. tauto.
Qed.

End SyllableClaims.

Lemma syllable_markers_normalised_witness :
  wf sample_doc /\
  exists r,
    sanitize_tree py_int_ok sample_doc = Ok r /\
    In sample_syl_out (descendants r) /\
    attrib sample_syl_out = normalize_wordpos [("wordpos", "u")] /\
    wordpos_ok (attrib sample_syl_out) = true.
Proof.
  split; [exact wf_sample_doc|].
  destruct (syllable_markers_normalised py_int_ok sample_doc wf_sample_doc)
    as (_ & (r & Hr & Hok & Hnorm) & _).
  exists r. split; [exact Hr|].
  assert (r = sample_out)
    by (rewrite sample_doc_sanitized in Hr; now injection Hr).
  subst r.
  assert (Hin : In sample_syl_out (descendants sample_out))
    by (simpl; tauto).
  split; [exact Hin|]. split.
  - apply (Hnorm (E 12 "syl" [("wordpos", "u")] []) sample_syl_out);
      trivial. simpl. tauto.
  - now apply Hok.
Defined.

(** C8, as stated, fails on a document whose root element is a syllable:
    the search for syllables starts below the root, and the marker [u] of
    the root is still there afterwards. *)
Lemma root_syllable_not_normalised :
  wf root_syl_doc /\
  exists r,
    sanitize_tree py_int_ok root_syl_doc = Ok r /\
    has_tag mei_syl r = true /\
    attr_get "wordpos" (attrib r) = Some "u" /\
    wordpos_ok (attrib r) = false.
Proof.
  split; [exact wf_root_syl_doc|].
  eexists. split; [vm_compute; reflexivity|]. repeat split.
Qed.

Section LyricFree.

Variable int_ok : string -> bool.

Lemma sanitized_fixed t :
  wf t ->
  (forall c, In c (descendants t) -> has_tag mei_verse c = false) ->
  (forall c, In c (descendants t) -> has_tag mei_syl c = true ->
             normalize_wordpos (attrib c) = attrib c) ->
  (forall p l1 c l2,
      In p (iter t) -> children p = l1 ++ c :: l2 ->
      has_tag mei_measure c = true ->
      repair_n int_ok (List.length (filter (has_tag mei_measure) l1))
               (attrib c) = attrib c) ->
  sanitized int_ok t = t.
Proof.
  intros Hwf Hv Hs Hm. unfold sanitized.
  rewrite norm_below_id, prune_id; trivial.
  now apply repair_below_id.
Qed.

(** C7 (amended).  On a document with no verse below its root the sanitizer
    keeps the elements, their tags, their text and their order; the
    attributes are those of the input except for the markers of syllables
    and the numbers of measures, and when every syllable below the root has
    one of the four codes and every measure below the root has no number, an
    empty one or one that [int] accepts, the tree is returned as it was. *)
Theorem lyric_free_structure_kept root :
  wf root ->
  findall_desc mei_verse root = [] ->
  exists r,
    sanitize_tree int_ok root = Ok r /\
    skeleton r = skeleton root /\
    (forall p' l1' c' l2',
        In p' (iter r) -> children p' = l1' ++ c' :: l2' ->
        exists c0,
          In c0 (descendants root) /\ eid c0 = eid c' /\
          attrib c' =
          final_attrib int_ok
            (List.length (filter (has_tag mei_measure) l1')) c0) /\
    ((forall c, In c (descendants root) ->
                (has_tag mei_syl c = true -> wordpos_ok (attrib c) = true) /\
                (has_tag mei_measure c = true ->
                 number_ok int_ok (attrib c) = true)) ->
     r = root).
Proof.
  intros Hwf Hnone.
  assert (Hv : forall c, In c (descendants root) ->
                         has_tag mei_verse c = false)
    by now apply filter_nil_iff.
  exists (sanitized int_ok root).
  split; [now apply sanitize_tree_spec|]. split; [|split].
  - rewrite skeleton_sanitized; trivial. now rewrite prune_id.
  - intros p' l1' c' l2' Hp' Hch'.
    destruct (sanitized_origin int_ok root p' l1' c' l2' Hwf Hp' Hch')
      as (c0 & Hc0 & He & _ & _ & Ha).
    eauto.
  - intros Hok. apply sanitized_fixed; trivial.
    + intros c Hc Hs. apply normalize_wordpos_ok. now apply Hok.
    + intros p l1 c l2 Hp Hch Hm. apply repair_n_ok.
      apply Hok; trivial.
      apply (in_children_descendants root p); trivial.
      rewrite Hch. apply in_elt.
Qed.


End LyricFree.

Lemma lyric_free_structure_kept_witness :
  wf sample_out /\ findall_desc mei_verse sample_out = [] /\
  exists r,
    sanitize_tree py_int_ok sample_out = Ok r /\
    skeleton r = skeleton sample_out /\ r = sample_out.
Proof.
  split; [exact wf_sample_out|]. split; [reflexivity|].
  destruct (lyric_free_structure_kept py_int_ok sample_out wf_sample_out
              eq_refl) as (r & Hr & Hsk & _ & Hid).
  exists r. split; [exact Hr|]. split; [exact Hsk|].
  apply Hid. intros c Hc.
  simpl in Hc.
  repeat (destruct Hc as [<-|Hc]; [split; intros H; try discriminate H;
                                   reflexivity|]).
  contradiction.
Defined.

(** C7, as stated, fails on a document with no verse and a measure whose
    number is not one: the output has another attribute value. *)
Lemma lyric_free_input_changed :
  wf no_lyrics_doc /\
  findall_desc mei_verse no_lyrics_doc = [] /\
  exists r,
    sanitize_tree py_int_ok no_lyrics_doc = Ok r /\
    anon r <> anon no_lyrics_doc /\
    map attrib (iter r) <> map attrib (iter no_lyrics_doc).
Proof.
  split; [exact wf_no_lyrics_doc|]. split; [reflexivity|].
  exists no_lyrics_out. split; [vm_compute; reflexivity|].
  split; discriminate.
Qed.

(** ** The text boundary *)

Section TextClaims.

Variable int_ok : string -> bool.
Variable fromstring : string -> result Element.
Variable tostring : Element -> result string.


End TextClaims.

Example sanitizer_on_bad_text :
  remove_lyrics_from_mei py_int_ok sample_fromstring sample_tostring "<mei"
  = ("<mei", [LogError "Error processing MEI data" ParseError]).
Proof. reflexivity. Qed.

Example sanitizer_on_good_text :
  remove_lyrics_from_mei py_int_ok sample_fromstring sample_tostring "<mei/>"
  = ("<mei />", []).
Proof. reflexivity. Qed.

(** ** Sanitation of the output *)

Section Idempotence.

Variable int_ok : string -> bool.
Variable fromstring : string -> result Element.
Variable tostring : Element -> result string.


End Idempotence.




(** ** The track *)

Section TrackClaims.

Variables Tempo Note : Type.
Variable tempoToMidiEvents : Tempo -> result (list MidiEvent).
Variable noteToMidiEvents : Note -> result (list MidiEvent).

Lemma append_loop (g acc : list MidiEvent) :
  for_each (fun evs midi_note => Ok (evs ++ [midi_note])) g acc
  = Ok (acc ++ g).
Proof.
  revert acc. induction g as [|e g IH]; intros acc; simpl.
  - now rewrite app_nil_r.
  - rewrite IH. now rewrite <- app_assoc.
Qed.

(** The tempo loop ends at its first marking: with the exception of the
    translation, with [IndexError] when the translation is empty, and with
    the [TypeError] of the constructor otherwise. *)
Lemma tempo_loop_first t ts acc :
  for_each (tempo_step tempoToMidiEvents) (t :: ts) acc =
  match tempoToMidiEvents t with
  | Raise e => Raise e
  | Ok [] => Raise IndexError
  | Ok (_ :: _) => Raise TypeError
  end.
Proof.
  simpl. unfold tempo_step.
  destruct (tempoToMidiEvents t) as [[|first rest]|e]; reflexivity.
Qed.

Lemma note_loop (ns : list (Note * bool)) acc events :
  for_each (note_step noteToMidiEvents) ns acc = Ok events <->
  exists ngroups,
    Forall2 (fun n g => noteToMidiEvents n = Ok g)
            (map fst (filter (fun n => negb (snd n)) ns)) ngroups /\
    events = acc ++ List.concat ngroups.
Proof.
  revert acc. induction ns as [|[n r] ns IH]; intros acc; simpl.
  - split.
    + intros [= <-]. exists []. split; [constructor|].
      simpl. now rewrite app_nil_r.
    + intros (ngroups & HF & ->). inversion HF. simpl. now rewrite app_nil_r.
  - unfold note_step at 1. simpl. destruct r; simpl.
    + apply IH.
    + split.
      * destruct (noteToMidiEvents n) as [g|e] eqn:Hn; simpl;
          try discriminate.
        rewrite append_loop. simpl.
        intros H. apply IH in H as (ngroups & HF & ->).
        exists (g :: ngroups). split; [now constructor|].
        simpl. now rewrite app_assoc.
      * intros (ngroups & HF & ->).
        inversion HF as [|? g ? ngroups' Hn HF']; subst.
        rewrite Hn. simpl. rewrite append_loop. simpl.
        apply IH. exists ngroups'. split; trivial.
        simpl. now rewrite app_assoc.
Qed.

(** C2 (the code against the claim).  A track is assembled exactly when the
    flattened score has no tempo marking and every note or chord that is
    not a rest translates; it is then the translations of these notes, in
    order, whole and once, with nothing for the rests.  With a tempo marking
    whose translation is not empty the call of line 117 raises [TypeError]
    at the first marking: no tempo event is ever built and no track is
    assembled, where the claim has one event per marking at the head of the
    track. *)
Theorem track_event_order (score : Score Tempo Note) :
  (forall events,
      assemble_track tempoToMidiEvents noteToMidiEvents score = Ok events <->
      tempo_indications score = [] /\
      exists ngroups,
        Forall2 (fun n g => noteToMidiEvents n = Ok g)
                (sounding_notes score) ngroups /\
        events = List.concat ngroups) /\
  (forall t rest g,
      tempo_indications score = t :: rest ->
      tempoToMidiEvents t = Ok g -> g <> [] ->
      assemble_track tempoToMidiEvents noteToMidiEvents score
      = Raise TypeError).
Proof.
  unfold assemble_track, sounding_notes. split.
  - intros events.
    destruct (tempo_indications score) as [|t ts] eqn:Hts.
    + simpl. rewrite note_loop. split.
      * intros (ngroups & HF & ->). split; trivial. now exists ngroups.
      * intros (_ & ngroups & HF & ->). now exists ngroups.
    + rewrite tempo_loop_first. split.
      * destruct (tempoToMidiEvents t) as [[|first more]|e]; discriminate.
      * intros [H _]. discriminate.
  - intros t rest g -> Hg Hne. rewrite tempo_loop_first, Hg.
    destruct g; [congruence | reflexivity].
Qed.

(** A track is assembled for a score without tempo markings only. *)
Lemma assemble_track_ok_no_tempo (score : Score Tempo Note) events :
  assemble_track tempoToMidiEvents noteToMidiEvents score = Ok events ->
  tempo_indications score = [].
Proof.
  unfold assemble_track.
  destruct (tempo_indications score) as [|t ts]; trivial.
  rewrite tempo_loop_first.
  destruct (tempoToMidiEvents t) as [[|first more]|e]; discriminate.
Qed.

End TrackClaims.

Lemma track_event_order_witness :
  assemble_track sample_tempo_events sample_note_events sample_score
  = Raise TypeError /\
  assemble_track sample_tempo_events sample_note_events sample_notes_score
  = Ok [note_on "c4"; note_off "c4"; note_on "e4"; note_off "e4"].
Proof.
  split.
  - destruct (track_event_order string string sample_tempo_events
                sample_note_events sample_score) as [_ H].
    apply (H "120" ["90"]
             [mkMidiEvent 0 0 "DeltaTime" "120";
              mkMidiEvent 0 0 "SET_TEMPO" "x"]);
      [reflexivity | reflexivity | discriminate].
  - destruct (track_event_order string string sample_tempo_events
                sample_note_events sample_notes_score) as [H _].
    apply H. split; [reflexivity|].
    exists [[note_on "c4"; note_off "c4"]; [note_on "e4"; note_off "e4"]].
    split; [|reflexivity]. repeat constructor.
Defined.

(** ** The conversion of one file *)

Section ConvertClaims.

Variable int_ok : string -> bool.
Variable fromstring : string -> result Element.
Variable tostring : Element -> result string.
Variables Tempo Note : Type.
Variable tempoToMidiEvents : Tempo -> result (list MidiEvent).
Variable noteToMidiEvents : Note -> result (list MidiEvent).
Variable parse_mei : string -> result (Score Tempo Note).
Variable write_midi : list MidiEvent -> result string.
Variable splitext_root : string -> string.

(** C10 (the code against the claim).  The tempo loop never gets past the
    first tempo marking of the score.  When the translation of that marking
    is empty, line 121 raises [IndexError]; when it is not, the constructor
    of line 117 raises [TypeError].  Either way the handler of line 142
    catches the exception, the output file is not opened, the temporary
    file is removed and [convert_mei_to_midi] returns [None].  So an empty
    translation after a marking that translates is never indexed, and with
    every translation non-empty the handler is still reached, by the
    [TypeError], as soon as the score has a tempo marking. *)
Theorem empty_tempo_translation_aborts :
  (forall input_file output_file w mei_data score t rest g,
      files w input_file = Some mei_data ->
      parse_mei
        (fst (remove_lyrics_from_mei int_ok fromstring tostring mei_data))
      = Ok score ->
      tempo_indications score = t :: rest ->
      tempoToMidiEvents t = Ok g ->
      let e := match g with [] => IndexError | _ :: _ => TypeError end in
      assemble_track tempoToMidiEvents noteToMidiEvents score = Raise e /\
      exists w',
        convert_mei_to_midi int_ok fromstring tostring tempoToMidiEvents
          noteToMidiEvents parse_mei write_midi splitext_root
          input_file output_file w = (None, w') /\
        (forall q, q <> temp_file_of input_file ->
                   files w' q = files w q) /\
        files w' (temp_file_of input_file) = None /\
        exists printed,
          stdout w' = printed ++ [LogError "MIDI creation error" e]) /\
  (forall score : Score Tempo Note,
      (forall t, In t (tempo_indications score) ->
                 exists g, tempoToMidiEvents t = Ok g /\ g <> []) ->
      tempo_indications score <> [] ->
      assemble_track tempoToMidiEvents noteToMidiEvents score
      = Raise TypeError).
Proof.
  split.
  - intros input_file output_file w mei_data score t rest g
           Hfile Hparse Hts Ht e.
    assert (Hasm : assemble_track tempoToMidiEvents noteToMidiEvents score
                   = Raise e).
    { unfold assemble_track. rewrite Hts, tempo_loop_first, Ht.
      subst e. now destruct g. }
    split; trivial.
    unfold convert_mei_to_midi. simpl files. rewrite Hfile.
    destruct (remove_lyrics_from_mei int_ok fromstring tostring mei_data)
      as [text printed].
    simpl in Hparse. simpl files. rewrite String.eqb_refl, Hparse.
    unfold midi_creation. rewrite Hasm. simpl.
    rewrite String.eqb_refl. eexists. split; [reflexivity|].
    simpl. repeat split.
    + intros q Hq. apply String.eqb_neq in Hq. now rewrite Hq.
    + now rewrite String.eqb_refl.
    + eexists. reflexivity.
  - intros score Hall Hne. unfold assemble_track.
    destruct (tempo_indications score) as [|t ts]; [congruence|].
    rewrite tempo_loop_first.
    destruct (Hall t (or_introl eq_refl)) as ([|first more] & Hg & Hg');
      [congruence|].
    now rewrite Hg.
Qed.

End ConvertClaims.

Lemma empty_tempo_translation_aborts_witness :
  (exists w',
      convert_mei_to_midi py_int_ok sample_fromstring sample_tostring
        sample_tempo_events sample_note_events sample_parse_silent
        sample_write_midi sample_splitext_root "in.mei" None sample_world
      = (None, w') /\
      stdout w' =
      [LogText "Converting in.mei to MIDI...";
       LogError "MIDI creation error" IndexError]) /\
  (exists w',
      convert_mei_to_midi py_int_ok sample_fromstring sample_tostring
        sample_tempo_events sample_note_events sample_parse_mei
        sample_write_midi sample_splitext_root "in.mei" None sample_world
      = (None, w') /\
      stdout w' =
      [LogText "Converting in.mei to MIDI...";
       LogError "MIDI creation error" TypeError]) /\
  assemble_track sample_tempo_events sample_note_events sample_score
  = Raise TypeError.
Proof.
  destruct (empty_tempo_translation_aborts py_int_ok sample_fromstring
              sample_tostring string string sample_tempo_events
              sample_note_events sample_parse_silent sample_write_midi
              sample_splitext_root) as [Hsilent _].
  destruct (empty_tempo_translation_aborts py_int_ok sample_fromstring
              sample_tostring string string sample_tempo_events
              sample_note_events sample_parse_mei sample_write_midi
              sample_splitext_root) as [Hfail Hall].
  split; [|split].
  - destruct (Hsilent "in.mei" None sample_world "<mei/>"
                silent_first_score "" [] []
                eq_refl eq_refl eq_refl eq_refl)
      as (_ & w' & Hw' & _ & _ & printed & Hp).
    exists w'. split; [exact Hw'|].
    vm_compute in Hw'. injection Hw' as <-. reflexivity.
  - destruct (Hfail "in.mei" None sample_world "<mei/>"
                silent_tempo_score "120" [""]
                [mkMidiEvent 0 0 "DeltaTime" "120";
                 mkMidiEvent 0 0 "SET_TEMPO" "x"]
                eq_refl eq_refl eq_refl eq_refl)
      as (_ & w' & Hw' & _ & _ & printed & Hp).
    exists w'. split; [exact Hw'|].
    vm_compute in Hw'. injection Hw' as <-. reflexivity.
  - apply (Hall sample_score); [|discriminate].
    intros t [<-|[<-|[]]]; eexists; (split; [reflexivity | discriminate]).
Defined.

(** ** Places in the input *)

Lemma map_filter_split (A B : Type) (f : A -> B) (q : A -> bool)
      (l : list A) (a : list B) (x : B) (b : list B) :
  map f (filter q l) = a ++ x :: b ->
  exists la c lb,
    l = la ++ c :: lb /\ map f (filter q la) = a /\ f c = x /\
    q c = true /\ map f (filter q lb) = b.
Proof.
  revert a. induction l as [|y l IH]; intros a; simpl.
  - destruct a; discriminate.
  - destruct (q y) eqn:Hq; simpl.
    + destruct a as [|a0 a]; simpl; intros [= Hy Hrest].
      * exists [], y, l. simpl. auto.
      * destruct (IH a Hrest) as (la & c & lb & -> & Ha & Hc & Hqc & Hb).
        exists (y :: la), c, lb. simpl. rewrite Hq. simpl.
        repeat split; trivial. now rewrite Hy, Ha.
    + intros H.
      destruct (IH a H) as (la & c & lb & -> & Ha & Hc & Hqc & Hb).
      exists (y :: la), c, lb. simpl. rewrite Hq. auto.
Qed.

Lemma iter_prune_origin e p2 :
  In p2 (iter (prune e)) -> exists p1, In p1 (iter e) /\ p2 = prune p1.
Proof.
  rewrite iter_eq. intros [<-|H].
  - exists e. split; [apply in_iter_self | reflexivity].
  - destruct (descendants_prune_origin e p2 H) as (p1 & Hp1 & -> & _).
    exists p1. split; trivial. now apply descendants_iter.
Qed.

Lemma children_prune e :
  children (prune e) =
  map prune (filter (fun c => negb (has_tag mei_verse c)) (children e)).
Proof. destruct e. now rewrite prune_eq. Qed.

Lemma count_measures_prune l :
  List.length
    (filter (has_tag mei_measure)
       (map prune (filter (fun c => negb (has_tag mei_verse c)) l))) =
  List.length (filter (has_tag mei_measure) l).
Proof.
  induction l as [|c l IH]; simpl; trivial.
  destruct (has_tag mei_verse c) eqn:Hv; simpl.
  - destruct (has_tag mei_measure c) eqn:Hm; trivial.
    rewrite (measure_not_verse c Hm) in Hv. discriminate.
  - unfold has_tag at 1. rewrite tag_prune. fold (has_tag mei_measure c).
    destruct (has_tag mei_measure c); simpl; now rewrite IH.
Qed.

Lemma count_measures_map_attrib h l :
  List.length (filter (has_tag mei_measure) (map (map_attrib_by_id h) l)) =
  List.length (filter (has_tag mei_measure) l).
Proof. now rewrite filter_has_tag_map_attrib, length_map. Qed.

Section Places.

Variable int_ok : string -> bool.

(** The place of an element of the output among the children of its parent
    is a place of the input, with as many measures before it. *)
Lemma sanitized_place root p' l1' c' l2' :
  wf root ->
  In p' (iter (sanitized int_ok root)) ->
  children p' = l1' ++ c' :: l2' ->
  exists p0 l1 c0 l2,
    In p0 (iter root) /\ children p0 = l1 ++ c0 :: l2 /\
    eid c0 = eid c' /\
    List.length (filter (has_tag mei_measure) l1') =
    List.length (filter (has_tag mei_measure) l1).
Proof.
  intros Hwf Hp' Hch'. unfold sanitized in Hp'.
  pose proof (wf_norm_below root Hwf) as Hwf1.
  pose proof (wf_prune _ Hwf1) as Hwf2.
  rewrite <- (repair_below_write int_ok _ Hwf2) in Hp'.
  rewrite iter_map_attrib in Hp'.
  apply in_map_iff in Hp' as (p2 & <- & Hp2).
  rewrite children_map_attrib in Hch'.
  apply map_eq_app in Hch' as (l1_2 & rest & Hch2 & <- & Hrest).
  apply map_eq_cons in Hrest as (c2 & l2_2 & -> & <- & <-).
  destruct (iter_prune_origin _ _ Hp2) as (p1 & Hp1 & ->).
  rewrite children_prune in Hch2.
  apply map_filter_split in Hch2
    as (l1_1 & c1 & l2_1 & Hch1 & <- & <- & _ & _).
  rewrite <- (norm_below_write root Hwf), iter_map_attrib in Hp1.
  apply in_map_iff in Hp1 as (p0 & <- & Hp0).
  rewrite children_map_attrib in Hch1.
  apply map_eq_app in Hch1 as (l1 & rest & Hch0 & <- & Hrest).
  apply map_eq_cons in Hrest as (c0 & l2 & -> & <- & <-).
  exists p0, l1, c0, l2. repeat split; trivial.
  - now rewrite eid_map_attrib, eid_prune, eid_map_attrib.
  - now rewrite count_measures_map_attrib, count_measures_prune,
      count_measures_map_attrib.
Qed.

(** In a list of distinct objects an object is at one index. *)
Lemma split_unique (l1 : list Element) c l2 l1' c0 l2' :
  NoDup (map eid (l1 ++ c :: l2)) ->
  l1 ++ c :: l2 = l1' ++ c0 :: l2' -> eid c0 = eid c -> l1' = l1.
Proof.
  revert l1'. induction l1 as [|x l1 IH]; intros l1' Hnd Heq Hid.
  - destruct l1' as [|y l1']; trivial. exfalso.
    simpl in Heq, Hnd. injection Heq as _ ->.
    apply NoDup_cons_iff in Hnd as [Hnot _]. apply Hnot.
    rewrite <- Hid, map_app. apply in_or_app. right. now left.
  - destruct l1' as [|y l1']; simpl in Heq, Hnd.
    + exfalso. injection Heq as -> _.
      apply NoDup_cons_iff in Hnd as [Hnot _]. apply Hnot.
      rewrite Hid, map_app. apply in_or_app. right. now left.
    + injection Heq as -> Heq. f_equal.
      apply NoDup_cons_iff in Hnd as [_ Hnd]. now apply IH.
Qed.

(** On distinct objects an element is at one place only. *)
Lemma place_unique root p l1 c l2 p0 l1' c0 l2' :
  wf root ->
  In p (iter root) -> children p = l1 ++ c :: l2 ->
  In p0 (iter root) -> children p0 = l1' ++ c0 :: l2' ->
  eid c0 = eid c ->
  l1' = l1.
Proof.
  intros Hwf Hp Hch Hp0 Hch0 Heq.
  assert (p0 = p).
  { apply (parent_unique root p0 p c0 c); trivial.
    - rewrite Hch0. apply in_elt.
    - rewrite Hch. apply in_elt. }
  subst p0.
  pose proof (wf_children_ids root p Hwf Hp) as Hnd.
  rewrite Hch in Hnd. rewrite Hch in Hch0.
  now apply (split_unique l1 c l2 l1' c0 l2').
Qed.

(** X1.  The number that replaces an unusable one is the number of measures
    that come before the measure among the children of its parent in the
    input document: the verses that are removed first do not shift it.  The
    measure is in the output unless it was removed with a verse. *)
Theorem measure_number_counts_input_siblings root :
  wf root ->
  exists r,
    sanitize_tree int_ok root = Ok r /\
    forall p l1 m l2 num,
      In p (iter root) -> children p = l1 ++ m :: l2 ->
      has_tag mei_measure m = true ->
      attr_get "n" (attrib m) = Some num -> num <> "" ->
      int_ok num = false ->
      (In (eid m) (ids (prune root)) ->
       exists c', In c' (iter r) /\ eid c' = eid m) /\
      (forall c',
          In c' (iter r) -> eid c' = eid m ->
          attr_get "n" (attrib c') =
          Some (str (List.length (filter (has_tag mei_measure) l1)))).
Proof.
  intros Hwf. exists (sanitized int_ok root).
  split; [now apply sanitize_tree_spec|].
  intros p l1 m l2 num Hp Hch Ht Hn Hne Hint.
  assert (Hm : In m (descendants root)).
  { apply (in_children_descendants root p); trivial.
    rewrite Hch. apply in_elt. }
  split.
  - intros Hin. rewrite <- (ids_sanitized int_ok root Hwf) in Hin.
    unfold ids in Hin. apply in_map_iff in Hin as (c' & He & Hc').
    now exists c'.
  - intros c' Hc' Heq. rewrite iter_eq in Hc'. destruct Hc' as [<-|Hc'].
    + exfalso. apply (wf_not_own_descendant root m Hwf Hm).
      rewrite <- Heq. apply (sanitized_root int_ok root).
    + destruct (descendants_position _ _ Hc')
        as (p' & l1' & l2' & Hp' & Hch').
      destruct (sanitized_place root p' l1' c' l2' Hwf Hp' Hch')
        as (p0 & l0 & c0 & l0' & Hp0 & Hch0 & He0 & Hlen).
      assert (l0 = l1).
      { apply (place_unique root p l1 m l2 p0 l0 c0 l0'); trivial.
        congruence. }
      subst l0. rewrite <- Hlen.
      rewrite (sanitized_same_object int_ok root m p' l1' c' l2'); trivial;
        [|now apply descendants_iter].
      unfold final_attrib. rewrite Ht.
      now apply (repair_n_unparsed int_ok _ _ num).
Qed.

(** *** The order of the passes *)

Lemma tag_norm_syl e : tag (norm_syl e) = tag e.
Proof. now destruct e. Qed.

Lemma tag_repair_below e : tag (repair_below int_ok e) = tag e.
Proof. now destruct e. Qed.

Lemma tag_with_attrib f e : tag (with_attrib f e) = tag e.
Proof. now destruct e. Qed.

Lemma prune_with_attrib f e :
  prune (with_attrib f e) = with_attrib f (prune e).
Proof.
  destruct e as [i t a tx tl cs]. unfold with_attrib at 1.
  rewrite !prune_eq. reflexivity.
Qed.

Lemma norm_syl_eq i t a tx tl cs :
  norm_syl (Elem i t a tx tl cs) =
  Elem i t (if String.eqb t mei_syl then normalize_wordpos a else a) tx tl
       (map norm_syl cs).
Proof. reflexivity. Qed.

Lemma prune_norm_children cs :
  Forall (fun c => prune (norm_syl c) = norm_syl (prune c)) cs ->
  map prune (filter (fun c => negb (has_tag mei_verse c)) (map norm_syl cs))
  = map norm_syl
      (map prune (filter (fun c => negb (has_tag mei_verse c)) cs)).
Proof.
  induction 1 as [|c cs Hc _ IH]; simpl; trivial.
  unfold has_tag at 1. rewrite tag_norm_syl. fold (has_tag mei_verse c).
  destruct (has_tag mei_verse c); simpl; trivial. now rewrite Hc, IH.
Qed.

Lemma prune_norm_syl e : prune (norm_syl e) = norm_syl (prune e).
Proof.
  induction e as [i t a tx tl cs IH] using Element_ind.
  rewrite norm_syl_eq, !prune_eq, norm_syl_eq. f_equal.
  now apply prune_norm_children.
Qed.

Lemma prune_norm_below e : prune (norm_below e) = norm_below (prune e).
Proof.
  destruct e as [i t a tx tl cs]. simpl norm_below at 1.
  rewrite !prune_eq. simpl. f_equal.
  apply prune_norm_children. apply Forall_forall. intros c _.
  apply prune_norm_syl.
Qed.

Lemma prune_repair_children cs :
  Forall (fun c => prune (repair_below int_ok c)
                   = repair_below int_ok (prune c)) cs ->
  forall k,
    map prune (filter (fun c => negb (has_tag mei_verse c))
                 (repair_children int_ok k cs))
    = repair_children int_ok k
        (map prune (filter (fun c => negb (has_tag mei_verse c)) cs)).
Proof.
  induction 1 as [|c cs Hc _ IH]; intros k; simpl; trivial.
  destruct (has_tag mei_measure c) eqn:Hm; simpl.
  - unfold has_tag at 1. rewrite tag_with_attrib, tag_repair_below.
    fold (has_tag mei_verse c). rewrite (measure_not_verse c Hm). simpl.
    unfold has_tag at 2. rewrite tag_prune. fold (has_tag mei_measure c).
    rewrite Hm, prune_with_attrib, Hc. now rewrite IH.
  - unfold has_tag at 1. rewrite tag_repair_below.
    fold (has_tag mei_verse c).
    destruct (has_tag mei_verse c); simpl; [apply IH|].
    unfold has_tag at 2. rewrite tag_prune. fold (has_tag mei_measure c).
    now rewrite Hm, Hc, IH.
Qed.

Lemma prune_repair_below e :
  prune (repair_below int_ok e) = repair_below int_ok (prune e).
Proof.
  induction e as [i t a tx tl cs IH] using Element_ind.
  rewrite repair_below_eq, !prune_eq, repair_below_eq. f_equal.
  now apply prune_repair_children.
Qed.

Lemma norm_syl_with_attrib f e :
  has_tag mei_syl e = false ->
  norm_syl (with_attrib f e) = with_attrib f (norm_syl e).
Proof.
  destruct e as [i t a tx tl cs]. unfold has_tag. simpl. now intros ->.
Qed.

Lemma norm_repair_children cs :
  Forall (fun c => norm_syl (repair_below int_ok c)
                   = repair_below int_ok (norm_syl c)) cs ->
  forall k,
    map norm_syl (repair_children int_ok k cs)
    = repair_children int_ok k (map norm_syl cs).
Proof.
  induction 1 as [|c cs Hc _ IH]; intros k; simpl; trivial.
  unfold has_tag at 2. rewrite tag_norm_syl. fold (has_tag mei_measure c).
  destruct (has_tag mei_measure c) eqn:Hm; simpl.
  - rewrite norm_syl_with_attrib, Hc, IH; trivial.
    unfold has_tag. rewrite tag_repair_below.
    now apply measure_not_syl.
  - now rewrite Hc, IH.
Qed.

Lemma norm_syl_repair_below e :
  norm_syl (repair_below int_ok e) = repair_below int_ok (norm_syl e).
Proof.
  induction e as [i t a tx tl cs IH] using Element_ind.
  rewrite repair_below_eq, !norm_syl_eq, repair_below_eq. f_equal.
  now apply norm_repair_children.
Qed.

Lemma norm_below_repair_below e :
  norm_below (repair_below int_ok e) = repair_below int_ok (norm_below e).
Proof.
  destruct e as [i t a tx tl cs]. rewrite repair_below_eq. simpl norm_below.
  rewrite repair_below_eq. f_equal.
  apply norm_repair_children. apply Forall_forall. intros c _.
  apply norm_syl_repair_below.
Qed.

(** X2.  The three loops can run in any order: on a parsed document each
    of the six orders returns the tree that [remove_lyrics_from_mei]
    serialises. *)
Theorem passes_commute root :
  wf root ->
  exists r,
    sanitize_tree int_ok root = Ok r /\
    (r1 <- syl_pass root ;; r2 <- measure_pass int_ok r1 ;; verse_pass r2)
    = Ok r /\
    (r1 <- verse_pass root ;; r2 <- syl_pass r1 ;; measure_pass int_ok r2)
    = Ok r /\
    (r1 <- verse_pass root ;; r2 <- measure_pass int_ok r1 ;; syl_pass r2)
    = Ok r /\
    (r1 <- measure_pass int_ok root ;; r2 <- syl_pass r1 ;; verse_pass r2)
    = Ok r /\
    (r1 <- measure_pass int_ok root ;; r2 <- verse_pass r1 ;; syl_pass r2)
    = Ok r.
Proof.
  intros Hwf. exists (sanitized int_ok root).
  pose proof (wf_norm_below root Hwf) as Hs.
  pose proof (wf_prune root Hwf) as Hv.
  pose proof (wf_repair_below int_ok root Hwf) as Hm.
  split; [now apply sanitize_tree_spec|]. unfold sanitized.
  repeat split.
  - rewrite syl_pass_spec by trivial. simpl.
    rewrite measure_pass_spec by trivial. simpl.
    rewrite verse_pass_spec by now apply wf_repair_below.
    now rewrite prune_repair_below.
  - rewrite verse_pass_spec by trivial. simpl.
    rewrite syl_pass_spec by trivial. simpl.
    rewrite measure_pass_spec by now apply wf_norm_below.
    now rewrite prune_norm_below.
  - rewrite verse_pass_spec by trivial. simpl.
    rewrite measure_pass_spec by trivial. simpl.
    rewrite syl_pass_spec by now apply wf_repair_below.
    now rewrite norm_below_repair_below, prune_norm_below.
  - rewrite measure_pass_spec by trivial. simpl.
    rewrite syl_pass_spec by trivial. simpl.
    rewrite verse_pass_spec by now apply wf_norm_below.
    now rewrite norm_below_repair_below, prune_repair_below.
  - rewrite measure_pass_spec by trivial. simpl.
    rewrite verse_pass_spec by trivial. simpl.
    rewrite syl_pass_spec by now apply wf_prune.
    now rewrite prune_repair_below, norm_below_repair_below,
      prune_norm_below.
Qed.

(** *** Attributes that are not written *)

Lemma attr_get_set_other k key v a :
  key <> k -> attr_get key (attr_set k v a) = attr_get key a.
Proof.
  intros Hne. induction a as [|[k' v'] a IH]; simpl.
  - apply String.eqb_neq in Hne. rewrite String.eqb_sym. now rewrite Hne.
  - destruct (String.eqb k' k) eqn:E; simpl.
    + apply String.eqb_eq in E. subst k'.
      apply String.eqb_neq in Hne. rewrite String.eqb_sym in Hne.
      now rewrite Hne.
    + now rewrite IH.
Qed.

Lemma attr_set_keeps_keys k key v a :
  attr_get key a <> None -> attr_get key (attr_set k v a) <> None.
Proof.
  intros H. destruct (String.eqb key k) eqn:E.
  - apply String.eqb_eq in E. subst. now rewrite attr_get_set_same.
  - apply String.eqb_neq in E. now rewrite attr_get_set_other.
Qed.

Lemma final_attrib_other k c key :
  (key = "wordpos" -> has_tag mei_syl c = false) ->
  (key = "n" -> has_tag mei_measure c = false) ->
  attr_get key (final_attrib int_ok k c) = attr_get key (attrib c).
Proof.
  intros Hw Hn. unfold final_attrib.
  destruct (has_tag mei_measure c) eqn:Hm.
  - unfold repair_n. destruct (attr_get "n" (attrib c)) as [num|]; trivial.
    destruct (truthy num && negb (int_ok num)); trivial.
    apply attr_get_set_other. intros ->. now specialize (Hn eq_refl).
  - destruct (has_tag mei_syl c) eqn:Hs; trivial.
    assert (Hk : key <> "wordpos").
    { intros ->. now specialize (Hw eq_refl). }
    unfold normalize_wordpos.
    destruct (attr_get "wordpos" (attrib c)) as [wp|];
      [|now apply attr_get_set_other].
    destruct (existsb (String.eqb wp) ["s"; "i"; "m"; "t"]); trivial.
    destruct (String.eqb wp "u"); now apply attr_get_set_other.
Qed.

Lemma final_attrib_keeps_keys k c key :
  attr_get key (attrib c) <> None ->
  attr_get key (final_attrib int_ok k c) <> None.
Proof.
  intros H. unfold final_attrib.
  destruct (has_tag mei_measure c).
  - unfold repair_n. destruct (attr_get "n" (attrib c)) as [num|]; trivial.
    destruct (truthy num && negb (int_ok num)); trivial.
    now apply attr_set_keeps_keys.
  - destruct (has_tag mei_syl c); trivial.
    unfold normalize_wordpos.
    destruct (attr_get "wordpos" (attrib c)) as [wp|];
      [|now apply attr_set_keeps_keys].
    destruct (existsb (String.eqb wp) ["s"; "i"; "m"; "t"]); trivial.
    destruct (String.eqb wp "u"); now apply attr_set_keeps_keys.
Qed.

(** X3.  Every element of the output is an element of the input with its
    tag; it has each of its attributes with the value it had, except for
    [wordpos] on a syllable and [n] on a measure, and no attribute of it
    has been deleted. *)
Theorem other_attributes_kept root :
  wf root ->
  exists r,
    sanitize_tree int_ok root = Ok r /\
    forall c',
      In c' (iter r) ->
      exists c0,
        In c0 (iter root) /\ eid c0 = eid c' /\ tag c0 = tag c' /\
        (forall key,
            (key = "wordpos" -> has_tag mei_syl c0 = false) ->
            (key = "n" -> has_tag mei_measure c0 = false) ->
            attr_get key (attrib c') = attr_get key (attrib c0)) /\
        (forall key,
            attr_get key (attrib c0) <> None ->
            attr_get key (attrib c') <> None).
Proof.
  intros Hwf. exists (sanitized int_ok root).
  split; [now apply sanitize_tree_spec|].
  intros c' Hc'. rewrite iter_eq in Hc'. destruct Hc' as [<-|Hc'].
  - exists root.
    destruct (sanitized_root int_ok root) as (He & Ht & Ha & _).
    rewrite Ha. repeat split; auto. apply in_iter_self.
  - destruct (sanitized_descendant_origin int_ok root c' Hwf Hc')
      as (k & c0 & Hc0 & He & Ht & _ & ->).
    exists c0. repeat split; trivial.
    + now apply descendants_iter.
    + intros key. apply final_attrib_other.
    + intros key. apply final_attrib_keeps_keys.
Qed.

End Places.

(** X4.  With the [int] of Python the repair never writes a number that
    would itself need repair: after sanitation every measure below the root
    has no number, an empty one, or one that [int] accepts, and the number
    written for position [k] is the decimal numeral of [k]. *)
Theorem repaired_numbers_parse root :
  wf root ->
  exists r,
    sanitize_tree py_int_ok root = Ok r /\
    (forall c', In c' (descendants r) -> has_tag mei_measure c' = true ->
                number_ok py_int_ok (attrib c') = true) /\
    (forall k a, number_ok py_int_ok (repair_n py_int_ok k a) = true).
Proof.
  intros Hwf. exists (sanitized py_int_ok root).
  split; [now apply sanitize_tree_spec|]. split.
  - intros c' Hc' Ht.
    destruct (sanitized_descendant_origin py_int_ok root c' Hwf Hc')
      as (k & c0 & _ & _ & Htag & _ & ->).
    unfold final_attrib.
    rewrite (has_tag_eq mei_measure c0 c' Htag), Ht.
    apply number_ok_repair_n. apply py_int_ok_str.
  - intros k a. apply number_ok_repair_n. apply py_int_ok_str.
Qed.

Lemma measure_number_counts_input_siblings_witness :
  wf sample_doc /\
  exists r,
    sanitize_tree py_int_ok sample_doc = Ok r /\
    In sample_m3_out (iter r) /\
    attr_get "n" (attrib sample_m3_out) =
    Some (str (List.length
                 (filter (has_tag mei_measure)
                    [sample_m1; sample_staff; sample_m2]))).
Proof.
  split; [exact wf_sample_doc|].
  destruct (measure_number_counts_input_siblings py_int_ok sample_doc
              wf_sample_doc) as (r & Hr & H).
  exists r. split; [exact Hr|].
  assert (r = sample_out)
    by (rewrite sample_doc_sanitized in Hr; now injection Hr).
  subst r.
  assert (Hin : In sample_m3_out (iter sample_out)) by (simpl; tauto).
  split; [exact Hin|].
  assert (Hp : In (E 1 "section" []
                     [sample_m1; sample_staff; sample_m2; sample_m3;
                      sample_m4]) (iter sample_doc))
    by (right; left; reflexivity).
  assert (Hne : "abc" <> "") by discriminate.
  destruct (H _ [sample_m1; sample_staff; sample_m2] sample_m3 [sample_m4]
              "abc" Hp eq_refl eq_refl eq_refl Hne eq_refl) as [_ H2].
  exact (H2 sample_m3_out Hin eq_refl).
Defined.

Lemma passes_commute_witness :
  wf sample_doc /\
  exists r,
    sanitize_tree py_int_ok sample_doc = Ok r /\
    (r1 <- syl_pass sample_doc ;; r2 <- measure_pass py_int_ok r1 ;;
     verse_pass r2) = Ok r /\
    (r1 <- verse_pass sample_doc ;; r2 <- syl_pass r1 ;;
     measure_pass py_int_ok r2) = Ok r /\
    (r1 <- verse_pass sample_doc ;; r2 <- measure_pass py_int_ok r1 ;;
     syl_pass r2) = Ok r /\
    (r1 <- measure_pass py_int_ok sample_doc ;; r2 <- syl_pass r1 ;;
     verse_pass r2) = Ok r /\
    (r1 <- measure_pass py_int_ok sample_doc ;; r2 <- verse_pass r1 ;;
     syl_pass r2) = Ok r.
Proof.
  split; [exact wf_sample_doc|].
  exact (passes_commute py_int_ok sample_doc wf_sample_doc).
Defined.

Lemma other_attributes_kept_witness :
  wf sample_doc /\
  exists r,
    sanitize_tree py_int_ok sample_doc = Ok r /\
    In sample_m3_out (iter r) /\
    exists c0,
      In c0 (iter sample_doc) /\ eid c0 = 11 /\
      attr_get "xml:id" (attrib sample_m3_out) = attr_get "xml:id" (attrib c0).
Proof.
  split; [exact wf_sample_doc|].
  destruct (other_attributes_kept py_int_ok sample_doc wf_sample_doc)
    as (r & Hr & H).
  exists r. split; [exact Hr|].
  assert (r = sample_out)
    by (rewrite sample_doc_sanitized in Hr; now injection Hr).
  subst r.
  assert (Hin : In sample_m3_out (iter sample_out)) by (simpl; tauto).
  split; [exact Hin|].
  destruct (H sample_m3_out Hin) as (c0 & Hc0 & He & _ & Hk & _).
  exists c0. repeat split; trivial.
  apply Hk; discriminate.
Defined.

Lemma repaired_numbers_parse_witness :
  wf sample_doc /\
  exists r,
    sanitize_tree py_int_ok sample_doc = Ok r /\
    (forall c', In c' (descendants r) -> has_tag mei_measure c' = true ->
                number_ok py_int_ok (attrib c') = true) /\
    (forall k a, number_ok py_int_ok (repair_n py_int_ok k a) = true).
Proof.
  split; [exact wf_sample_doc|].
  exact (repaired_numbers_parse sample_doc wf_sample_doc).
Defined.

(** ** One file: what [convert_mei_to_midi] leaves behind *)

Lemma append_not_self (s t : string) : t <> "" -> (s ++ t)%string <> s.
Proof.
  intros Ht. induction s as [|c s IH]; simpl.
  - exact Ht.
  - intros [= H]. now apply IH.
Qed.

Lemma temp_file_not_input input_file : temp_file_of input_file <> input_file.
Proof. apply append_not_self. discriminate. Qed.

Lemma eqb_neq_false (q p : string) : q <> p -> String.eqb q p = false.
Proof. apply String.eqb_neq. Qed.

Section ConvertOutcome.

Variable int_ok : string -> bool.
Variable fromstring : string -> result Element.
Variable tostring : Element -> result string.
Variables Tempo Note : Type.
Variable tempoToMidiEvents : Tempo -> result (list MidiEvent).
Variable noteToMidiEvents : Note -> result (list MidiEvent).
Variable parse_mei : string -> result (Score Tempo Note).
Variable write_midi : list MidiEvent -> result string.
Variable splitext_root : string -> string.

(** The run of [convert_mei_to_midi], by the step that fails. *)
Lemma convert_cases input_file output_file w :
  convert_mei_to_midi int_ok fromstring tostring tempoToMidiEvents
    noteToMidiEvents parse_mei write_midi splitext_root
    input_file output_file w =
  let out := target_of splitext_root input_file output_file in
  let temp := temp_file_of input_file in
  let w0 := print (LogText ("Converting " ++ input_file ++ " to MIDI...")) w in
  match files w input_file with
  | None =>
      (None, print (LogError ("Error processing " ++ input_file) OSError) w0)
  | Some d =>
      let sane := remove_lyrics_from_mei int_ok fromstring tostring d in
      let w1 := write_file temp (fst sane)
                  (mkWorld (files w0) (stdout w0 ++ snd sane)) in
      match parse_mei (fst sane) with
      | Raise e =>
          (None,
           remove_file temp
             (print (LogError "Music21 conversion error" e) w1))
      | Ok score =>
          match assemble_track tempoToMidiEvents noteToMidiEvents score with
          | Raise e =>
              (None,
               remove_file temp
                 (print (LogError "MIDI creation error" e) w1))
          | Ok events =>
              match write_midi events with
              | Raise e =>
                  (None,
                   remove_file temp
                     (print (LogError "MIDI creation error" e)
                        (write_file out "" w1)))
              | Ok bytes =>
                  (Some out,
                   remove_file temp
                     (print (LogText ("Successfully converted to " ++ out))
                        (write_file out bytes (write_file out "" w1))))
              end
          end
      end
  end.
Proof.
  unfold convert_mei_to_midi, target_of. cbv zeta. simpl files.
  destruct (files w input_file) as [d|]; trivial.
  destruct (remove_lyrics_from_mei int_ok fromstring tostring d)
    as [text printed].
  simpl fst. simpl snd. simpl files. rewrite String.eqb_refl.
  destruct (parse_mei text) as [score|e].
  - unfold midi_creation.
    destruct (assemble_track tempoToMidiEvents noteToMidiEvents score)
      as [events|e].
    + destruct (write_midi events) as [bytes|e]; simpl files.
      * destruct (String.eqb (temp_file_of input_file)
                    match output_file with
                    | Some o => o
                    | None => (splitext_root input_file ++ ".mid")%string
                    end);
          try rewrite String.eqb_refl; reflexivity.
      * destruct (String.eqb (temp_file_of input_file)
                    match output_file with
                    | Some o => o
                    | None => (splitext_root input_file ++ ".mid")%string
                    end);
          try rewrite String.eqb_refl; reflexivity.
    + simpl files. rewrite String.eqb_refl. reflexivity.
  - simpl files. rewrite String.eqb_refl. reflexivity.
Qed.

(** Apart from the temporary file and the target, no file is touched. *)
Lemma convert_frame input_file output_file w q :
  q <> temp_file_of input_file ->
  q <> target_of splitext_root input_file output_file ->
  files
    (snd (convert_mei_to_midi int_ok fromstring tostring tempoToMidiEvents
            noteToMidiEvents parse_mei write_midi splitext_root
            input_file output_file w)) q
  = files w q.
Proof.
  intros Ht Ho. apply eqb_neq_false in Ht. apply eqb_neq_false in Ho.
  rewrite convert_cases. cbv zeta.
  destruct (files w input_file) as [d|]; trivial.
  destruct (parse_mei _) as [score|e]; simpl; [|now rewrite Ht].
  destruct (assemble_track _ _ score) as [events|e]; simpl;
    [|now rewrite Ht].
  destruct (write_midi events) as [bytes|e]; simpl; now rewrite Ht, ?Ho.
Qed.

(** X5.  Whatever happens, [convert_mei_to_midi] leaves every file other
    than the temporary file and the target as it was; the input file is one
    of them unless it is itself named as the target. *)
Theorem convert_changes_two_paths input_file output_file w :
  let r :=
    convert_mei_to_midi int_ok fromstring tostring tempoToMidiEvents
      noteToMidiEvents parse_mei write_midi splitext_root
      input_file output_file w in
  let target := target_of splitext_root input_file output_file in
  (forall q,
      q <> temp_file_of input_file -> q <> target ->
      files (snd r) q = files w q) /\
  (target <> input_file -> files (snd r) input_file = files w input_file).
Proof.
  cbv zeta. split.
  - intros q. apply convert_frame.
  - intros Hne. apply convert_frame.
    + intros H. symmetry in H. now apply temp_file_not_input in H.
    + congruence.
Qed.


(** X7.  [convert_mei_to_midi] returns a path only when the input file was
    read, music21 parsed the sanitized text into a score without tempo
    markings, every sounding note translated and the track was written; the
    path is the target. *)
Theorem convert_succeeds_only_if input_file output_file w o :
  fst (convert_mei_to_midi int_ok fromstring tostring tempoToMidiEvents
      noteToMidiEvents parse_mei write_midi splitext_root
         input_file output_file w) = Some o ->
  exists d score events bytes,
    files w input_file = Some d /\
    parse_mei (fst (remove_lyrics_from_mei int_ok fromstring tostring d))
    = Ok score /\
    tempo_indications score = [] /\
    assemble_track tempoToMidiEvents noteToMidiEvents score = Ok events /\
    write_midi events = Ok bytes /\
    o = target_of splitext_root input_file output_file.
Proof.
  rewrite convert_cases. cbv zeta.
  destruct (files w input_file) as [d|]; [|discriminate].
  destruct (parse_mei _) as [score|e] eqn:Hp; [|discriminate].
  destruct (assemble_track _ _ score) as [events|e] eqn:Ha;
    [|discriminate].
  destruct (write_midi events) as [bytes|e] eqn:Hw; [|discriminate].
  simpl. intros [= <-]. exists d, score, events, bytes.
  repeat split; trivial.
  exact (assemble_track_ok_no_tempo _ _ _ _ _ _ Ha).
Qed.

(** X8.  When [convert_mei_to_midi] returns a path other than the
    temporary path, the file at that path holds the bytes that [mf.write()]
    made of the track assembled from the sanitized text of the input file,
    and the lines printed are the line of line 91, what the sanitizer
    printed, and the line of line 139 with that path. *)
Theorem convert_writes_track input_file output_file w o :
  let r :=
    convert_mei_to_midi int_ok fromstring tostring tempoToMidiEvents
      noteToMidiEvents parse_mei write_midi splitext_root
      input_file output_file w in
  fst r = Some o ->
  o <> temp_file_of input_file ->
  exists d score events bytes,
    files w input_file = Some d /\
    parse_mei (fst (remove_lyrics_from_mei int_ok fromstring tostring d))
    = Ok score /\
    assemble_track tempoToMidiEvents noteToMidiEvents score = Ok events /\
    write_midi events = Ok bytes /\
    files (snd r) o = Some bytes /\
    stdout (snd r) =
    stdout w ++
    [LogText ("Converting " ++ input_file ++ " to MIDI...")] ++
    snd (remove_lyrics_from_mei int_ok fromstring tostring d) ++
    [LogText ("Successfully converted to " ++ o)].
Proof.
  cbv zeta. rewrite convert_cases. cbv zeta.
  destruct (files w input_file) as [d|]; [|discriminate].
  destruct (parse_mei _) as [score|e] eqn:Hp; [|discriminate].
  destruct (assemble_track _ _ score) as [events|e] eqn:Ha;
    [|discriminate].
  destruct (write_midi events) as [bytes|e] eqn:Hw; [|discriminate].
  simpl. intros [= <-] Hne. apply eqb_neq_false in Hne.
  exists d, score, events, bytes. repeat split; trivial.
  - now rewrite Hne, String.eqb_refl.
  - now rewrite <- !app_assoc.
Qed.

(** X9.  When the caller names [input_file + '.temp.mei'] as the output, a
    conversion that returns a path returns that path, but the clean-up of
    lines 153-154 has removed the file. *)
Theorem convert_target_on_temp_path input_file w o :
  let r :=
    convert_mei_to_midi int_ok fromstring tostring tempoToMidiEvents
      noteToMidiEvents parse_mei write_midi splitext_root
      input_file (Some (temp_file_of input_file)) w in
  fst r = Some o ->
  o = temp_file_of input_file /\ files (snd r) o = None.
Proof.
  cbv zeta. rewrite convert_cases. cbv zeta.
  destruct (files w input_file) as [d|]; [|discriminate].
  destruct (parse_mei _) as [score|e]; [|discriminate].
  destruct (assemble_track _ _ score) as [events|e]; [|discriminate].
  destruct (write_midi events) as [bytes|e]; [|discriminate].
  simpl. intros [= <-]. now rewrite String.eqb_refl.
Qed.

(** X11.  When music21 rejects the sanitized text, the result is [None],
    no file but the temporary one is written, the temporary file is
    removed, and the error of line 148 is printed after whatever the
    sanitizer printed. *)
Theorem convert_parse_failure input_file output_file w d e :
  files w input_file = Some d ->
  parse_mei (fst (remove_lyrics_from_mei int_ok fromstring tostring d))
  = Raise e ->
  let r :=
    convert_mei_to_midi int_ok fromstring tostring tempoToMidiEvents
      noteToMidiEvents parse_mei write_midi splitext_root
      input_file output_file w in
  fst r = None /\
  (forall q, q <> temp_file_of input_file -> files (snd r) q = files w q) /\
  files (snd r) (temp_file_of input_file) = None /\
  stdout (snd r) =
  stdout w ++
  [LogText ("Converting " ++ input_file ++ " to MIDI...")] ++
  snd (remove_lyrics_from_mei int_ok fromstring tostring d) ++
  [LogError "Music21 conversion error" e].
Proof.
  intros Hd Hp. cbv zeta.
  rewrite convert_cases. cbv zeta. rewrite Hd, Hp. simpl.
  repeat split.
  - intros q Hq. apply eqb_neq_false in Hq. now rewrite Hq.
  - now rewrite String.eqb_refl.
  - now rewrite <- !app_assoc.
Qed.


End ConvertOutcome.


Lemma convert_succeeds_only_if_witness :
  fst (sample_convert sample_parse_notes sample_write_midi
         "in.mei" None sample_full_world) = Some "in.mid" /\
  exists d score events bytes,
    files sample_full_world "in.mei" = Some d /\
    sample_parse_notes
      (fst (remove_lyrics_from_mei py_int_ok sample_fromstring
              sample_tostring d)) = Ok score /\
    tempo_indications score = [] /\
    assemble_track sample_tempo_events sample_note_events score
    = Ok events /\
    sample_write_midi events = Ok bytes /\
    "in.mid" = target_of sample_splitext_root "in.mei" None.
Proof.
  split; [reflexivity|].
  apply (convert_succeeds_only_if py_int_ok sample_fromstring
           sample_tostring string string sample_tempo_events
           sample_note_events sample_parse_notes sample_write_midi
           sample_splitext_root "in.mei" None sample_full_world "in.mid").
  reflexivity.
Defined.

Lemma convert_writes_track_witness :
  let r := sample_convert sample_parse_notes sample_write_midi
             "in.mei" None sample_full_world in
  files sample_full_world "in.mid" = Some "old track" /\
  fst r = Some "in.mid" /\
  files (snd r) "in.mid" = Some "MThd" /\
  stdout (snd r) =
  [LogText "Converting in.mei to MIDI...";
   LogText "Successfully converted to in.mid"].
Proof.
  cbv zeta. split; [reflexivity|]. split; [reflexivity|].
  destruct (convert_writes_track py_int_ok sample_fromstring
              sample_tostring string string sample_tempo_events
              sample_note_events sample_parse_notes sample_write_midi
              sample_splitext_root "in.mei" None sample_full_world
              "in.mid" eq_refl)
    as (d & score & events & bytes & Hd & Hp & Ha & Hw & Hf & Hs).
  - discriminate.
  - injection Hd as <-. simpl in Hp. injection Hp as <-.
    vm_compute in Ha. injection Ha as <-.
    injection Hw as <-. split; [exact Hf | exact Hs].
Defined.

Lemma convert_target_on_temp_path_witness :
  let r := sample_convert sample_parse_notes sample_write_midi
             "in.mei" (Some "in.mei.temp.mei") sample_full_world in
  fst r = Some "in.mei.temp.mei" /\
  files (snd r) "in.mei.temp.mei" = None.
Proof.
  cbv zeta. split; [reflexivity|].
  apply (convert_target_on_temp_path py_int_ok sample_fromstring
           sample_tostring string string sample_tempo_events
           sample_note_events sample_parse_notes sample_write_midi
           sample_splitext_root "in.mei" sample_full_world
           "in.mei.temp.mei" eq_refl).
Defined.

Lemma convert_parse_failure_witness :
  let r := sample_convert sample_parse_ok sample_write_midi
             "bad.mei" None sample_full_world in
  fst r = None /\
  (forall q, q <> "bad.mei.temp.mei" ->
             files (snd r) q = files sample_full_world q) /\
  files (snd r) "bad.mei.temp.mei" = None /\
  stdout (snd r) =
  [LogText "Converting bad.mei to MIDI...";
   LogError "Error processing MEI data" ParseError;
   LogError "Music21 conversion error" (OtherError "not MEI")].
Proof.
  apply (convert_parse_failure py_int_ok sample_fromstring sample_tostring
           string string sample_tempo_events sample_note_events
           sample_parse_ok sample_write_midi sample_splitext_root
           "bad.mei" None sample_full_world "<mei" (OtherError "not MEI"));
    reflexivity.
Defined.


(** ** The filter on file names *)

Lemma endswith_spec s suffix :
  endswith s suffix = true <-> exists p, s = (p ++ suffix)%string.
Proof.
  induction s as [|c s IH]; cbn [endswith].
  - rewrite orb_false_r, String.eqb_eq. split.
    + intros <-. now exists "".
    + intros [[|c p] H]; simpl in H; [exact H | discriminate].
  - rewrite orb_true_iff, String.eqb_eq, IH. split.
    + intros [<-|[p ->]]; [now exists "" | now exists (String c p)].
    + intros [[|c' p] H]; simpl in H; [now left|].
      injection H as -> ->. right. now exists p.
Qed.

Lemma string_app_assoc (a b c : string) :
  ((a ++ b) ++ c)%string = (a ++ (b ++ c))%string.
Proof. induction a as [|x a IH]; simpl; [|rewrite IH]; reflexivity. Qed.

Lemma lower_app s t : lower (s ++ t) = (lower s ++ lower t)%string.
Proof. induction s as [|c s IH]; simpl; [|rewrite IH]; reflexivity. Qed.

Lemma lower_split s a b :
  lower s = (a ++ b)%string ->
  exists a' b', s = (a' ++ b')%string /\ lower a' = a /\ lower b' = b.
Proof.
  revert a. induction s as [|c s IH]; intros a H.
  - destruct a; simpl in H; [|discriminate].
    exists "", "". simpl. auto.
  - destruct a as [|c' a]; simpl in H.
    + exists "", (String c s). simpl. auto.
    + injection H as <- H. destruct (IH a H) as (a' & b' & -> & <- & <-).
      exists (String c a'), b'. auto.
Qed.

Lemma lower_char_cases (c : ascii) :
  (lower_char c = "."%char <-> c = "."%char) /\
  (lower_char c = "m"%char <-> c = "m"%char \/ c = "M"%char) /\
  (lower_char c = "e"%char <-> c = "e"%char \/ c = "E"%char) /\
  (lower_char c = "i"%char <-> c = "i"%char \/ c = "I"%char).
Proof.
  destruct c as [[] [] [] [] [] [] [] []]; vm_compute;
    repeat split; intros; try discriminate; try tauto;
    repeat match goal with H : _ \/ _ |- _ => destruct H end;
    try discriminate; auto.
Qed.

(** X13.  The filter of lines 187 and 217 takes a name for an MEI file
    exactly when the name ends in a dot and the letters m, e, i, each in
    either case. *)
Theorem is_mei_spec name :
  is_mei name = true <->
  exists stem c1 c2 c3,
    name = (stem ++ String "." (String c1 (String c2 (String c3 ""))))%string
    /\ (c1 = "m" \/ c1 = "M")%char /\ (c2 = "e" \/ c2 = "E")%char
    /\ (c3 = "i" \/ c3 = "I")%char.
Proof.
  unfold is_mei. rewrite endswith_spec. split.
  - intros [p H]. apply lower_split in H as (stem & b & -> & _ & Hb).
    destruct b as [|c0 [|c1 [|c2 [|c3 [|]]]]]; simpl in Hb; try discriminate.
    injection Hb as H0 H1 H2 H3.
    apply (proj1 (lower_char_cases c0)) in H0. subst c0.
    apply (proj1 (proj2 (lower_char_cases c1))) in H1.
    apply (proj1 (proj2 (proj2 (lower_char_cases c2)))) in H2.
    apply (proj2 (proj2 (proj2 (lower_char_cases c3)))) in H3.
    exists stem, c1, c2, c3. auto.
  - intros (stem & c1 & c2 & c3 & -> & H1 & H2 & H3).
    exists (lower stem). rewrite lower_app. f_equal. simpl.
    apply (proj2 (proj1 (proj2 (lower_char_cases c1)))) in H1.
    apply (proj2 (proj1 (proj2 (proj2 (lower_char_cases c2))))) in H2.
    apply (proj2 (proj2 (proj2 (proj2 (lower_char_cases c3))))) in H3.
    now rewrite H1, H2, H3.
Qed.

(** X14.  The temporary file that [convert_mei_to_midi] writes next to an
    input has a name that the filter of [process_directory] and [main]
    accepts, whatever the input is called, and it is never the input
    itself. *)
Theorem temp_file_is_mei input_file :
  is_mei (temp_file_of input_file) = true /\
  temp_file_of input_file <> input_file.
Proof.
  split; [|apply temp_file_not_input].
  unfold is_mei, temp_file_of. apply endswith_spec.
  exists (lower input_file ++ ".temp")%string.
  now rewrite lower_app, string_app_assoc.
Qed.

(** ** A directory of files *)

Section DirectoryOutcome.

Variable int_ok : string -> bool.
Variable fromstring : string -> result Element.
Variable tostring : Element -> result string.
Variables Tempo Note : Type.
Variable tempoToMidiEvents : Tempo -> result (list MidiEvent).
Variable noteToMidiEvents : Note -> result (list MidiEvent).
Variable parse_mei : string -> result (Score Tempo Note).
Variable write_midi : list MidiEvent -> result string.
Variable splitext_root : string -> string.
Variable isdir : string -> bool.
Variable path_exists : string -> bool.
Variable makedirs : string -> result unit.
Variable listdir : string -> result (list string).
Variable path_join : string -> string -> string.



(** The loop touches the temporary files and the targets of the names that
    pass the filter, and nothing else. *)
Lemma directory_loop_frame input_dir output_dir names st q :
  (forall name,
      In name names -> is_mei name = true ->
      q <> temp_file_of (path_join input_dir name) /\
      q <> target_of splitext_root (path_join input_dir name)
             (output_path_of splitext_root path_join output_dir name)) ->
  files
    (snd (fold_left
            (directory_step int_ok fromstring tostring tempoToMidiEvents
               noteToMidiEvents parse_mei write_midi splitext_root path_join
               input_dir output_dir)
            names st)) q
  = files (snd st) q.
Proof.
  revert st. induction names as [|name names IH]; intros st Hq; simpl;
    trivial.
  rewrite IH by (intros n Hn; apply Hq; now right).
  destruct st as [[s f] w]. unfold directory_step.
  destruct (is_mei name) eqn:Hm; trivial.
  destruct (Hq name (or_introl eq_refl) Hm) as [Ht Ho].
  pose proof (convert_frame int_ok fromstring tostring Tempo Note
                tempoToMidiEvents noteToMidiEvents parse_mei write_midi
                splitext_root (path_join input_dir name)
                (output_path_of splitext_root path_join output_dir name)
                w q Ht Ho) as Hf.
  destruct (convert_mei_to_midi _ _ _ _ _ _ _ _ _ _ w) as [result w1].
  simpl in Hf. now destruct (truthy_opt result).
Qed.


(** X16.  When [process_directory] returns, a file that is neither the
    temporary file nor the target of a listed name that passes the filter
    is as it was. *)
Theorem process_directory_frame input_dir output_dir w n w' q :
  process_directory int_ok fromstring tostring tempoToMidiEvents
    noteToMidiEvents parse_mei write_midi splitext_root isdir path_exists
    makedirs listdir path_join input_dir output_dir w
  = Ok (n, w') ->
  (forall names name,
      listdir input_dir = Ok names ->
      In name names -> is_mei name = true ->
      q <> temp_file_of (path_join input_dir name) /\
      q <> target_of splitext_root (path_join input_dir name)
             (output_path_of splitext_root path_join output_dir name)) ->
  files w' q = files w q.
Proof.
  unfold process_directory. intros H Hq.
  destruct (isdir input_dir); simpl in H; [|now injection H as _ <-].
  destruct (match output_dir with
            | Some d =>
                if truthy d && negb (path_exists d)
                then makedirs d else Ok tt
            | None => Ok tt
            end); simpl in H; [|discriminate].
  destruct (listdir input_dir) as [names|e]; simpl in H; [|discriminate].
  pose proof (directory_loop_frame input_dir output_dir names (0, 0, w) q
                (fun name => Hq names name eq_refl)) as Hf.
  destruct (fold_left _ names (0, 0, w)) as [[s f] w1].
  injection H as _ <-. exact Hf.
Qed.


End DirectoryOutcome.


Lemma process_directory_frame_witness :
  match sample_process_directory "songs" None sample_dir_world with
  | Ok (n, w') => files w' "songs/keep.txt" = Some "kept"
  | Raise _ => False
  end.
Proof.
  destruct (sample_process_directory "songs" None sample_dir_world)
    as [[n w']|e] eqn:H.
  - apply (process_directory_frame py_int_ok sample_fromstring
             sample_tostring string string sample_tempo_events
             sample_note_events sample_parse_ok sample_write_midi
             sample_stem sample_isdir sample_exists sample_makedirs
             sample_listdir sample_join "songs" None sample_dir_world n w'
             "songs/keep.txt" H).
    intros names name Hl. vm_compute in Hl. injection Hl as <-.
    intros [<-|[<-|[<-|[]]]] _; split; intros Hq; vm_compute in Hq;
      discriminate Hq.
  - vm_compute in H. discriminate H.
Defined.

(** ** Failures of the track *)

Section TrackOutcome.

Variables Tempo Note : Type.
Variable tempoToMidiEvents : Tempo -> result (list MidiEvent).

(** The note loop is a loop over the notes that sound. *)
Lemma note_loop_sounding (f : Note -> result (list MidiEvent)) ns acc :
  for_each (note_step f) ns acc =
  for_each (fun evs n => g <- f n ;; Ok (evs ++ g))
           (map fst (filter (fun n => negb (snd n)) ns)) acc.
Proof.
  revert acc. induction ns as [|[n r] ns IH]; intros acc; simpl; trivial.
  unfold note_step at 1. simpl. destruct r; simpl; [apply IH|].
  destruct (f n) as [g|e]; simpl; trivial.
  rewrite append_loop. simpl. apply IH.
Qed.


Lemma sounding_loop_raise (f : Note -> result (list MidiEvent)) ns acc e :
  for_each (fun evs n => g <- f n ;; Ok (evs ++ g)) ns acc = Raise e <->
  exists ns1 n ns2,
    ns = ns1 ++ n :: ns2 /\
    (forall n', In n' ns1 -> exists g, f n' = Ok g) /\
    f n = Raise e.
Proof.
  revert acc. induction ns as [|n ns IH]; intros acc; simpl.
  - split; [discriminate|].
    intros (ns1 & n & ns2 & H & _). now destruct ns1.
  - destruct (f n) as [g|e0] eqn:Hn; simpl.
    + rewrite IH. split.
      * intros (ns1 & n0 & ns2 & -> & H1 & H2).
        exists (n :: ns1), n0, ns2. repeat split; trivial.
        intros n' [<-|Hn']; [now exists g | now apply H1].
      * intros (ns1 & n0 & ns2 & H & H1 & H2).
        destruct ns1 as [|n1 ns1]; simpl in H; injection H as <- H.
        -- congruence.
        -- exists ns1, n0, ns2. repeat split; trivial.
           intros n' Hn'. apply H1. now right.
    + split.
      * intros [= <-]. exists [], n, ns. simpl. repeat split; auto.
        intros n' [].
      * intros (ns1 & n0 & ns2 & H & H1 & H2).
        destruct ns1 as [|n1 ns1]; simpl in H; injection H as <- _.
        -- congruence.
        -- destruct (H1 n (or_introl eq_refl)) as (g & Hg). congruence.
Qed.

(** X18.  The assembly of the track raises exactly when the score has a
    tempo marking or the translation of a sounding note raises.  With a
    tempo marking it ends at the first one: with the exception of its
    translation, with [IndexError] when the translation is empty, and with
    the [TypeError] of line 117 otherwise.  Without tempo markings the
    exception is that of the first sounding note whose translation
    raises. *)
Theorem track_first_failure noteToMidiEvents (score : Score Tempo Note) e :
  assemble_track tempoToMidiEvents noteToMidiEvents score = Raise e <->
  (exists t rest,
      tempo_indications score = t :: rest /\
      (tempoToMidiEvents t = Raise e \/
       tempoToMidiEvents t = Ok [] /\ e = IndexError \/
       (exists first more, tempoToMidiEvents t = Ok (first :: more)) /\
       e = TypeError))
  \/
  (tempo_indications score = [] /\
   exists ns1 n ns2,
     sounding_notes score = ns1 ++ n :: ns2 /\
     (forall n', In n' ns1 -> exists g, noteToMidiEvents n' = Ok g) /\
     noteToMidiEvents n = Raise e).
Proof.
  unfold assemble_track, sounding_notes.
  destruct (tempo_indications score) as [|t ts] eqn:Hts.
  - simpl. rewrite note_loop_sounding, sounding_loop_raise. split.
    + intros H. right. split; trivial.
    + intros [(t & rest & H & _)|[_ H]]; [discriminate | exact H].
  - rewrite tempo_loop_first. split.
    + intros H. left. exists t, ts. split; trivial.
      destruct (tempoToMidiEvents t) as [[|first more]|e0].
      * injection H as <-. right. left. auto.
      * injection H as <-. right. right. split; trivial.
        now exists first, more.
      * injection H as <-. now left.
    + intros [(t0 & rest & [= <- <-] & H)|[H _]]; [|discriminate].
      destruct H as [H|[[H ->]|[(first & more & H) ->]]]; now rewrite H.
Qed.


End TrackOutcome.

Lemma track_first_failure_witness :
  assemble_track sample_tempo_events sample_note_events silent_tempo_score
  = Raise TypeError /\
  assemble_track sample_tempo_events sample_note_events silent_first_score
  = Raise IndexError /\
  assemble_track sample_tempo_events sample_note_fails sample_bad_note_score
  = Raise (OtherError "bad note").
Proof.
  split; [|split].
  - apply (track_first_failure string string sample_tempo_events
             sample_note_events silent_tempo_score TypeError).
    left. exists "120", [""]. split; [reflexivity|].
    right. right. split; [|reflexivity]. eexists. eexists. reflexivity.
  - apply (track_first_failure string string sample_tempo_events
             sample_note_events silent_first_score IndexError).
    left. exists "", []. split; [reflexivity|].
    right. left. split; reflexivity.
  - apply (track_first_failure string string sample_tempo_events
             sample_note_fails sample_bad_note_score
             (OtherError "bad note")).
    right. split; [reflexivity|].
    exists ["c4"], "x", []. repeat split.
    intros n' [<-|[]]. eexists. reflexivity.
Defined.


(** ** Running a conversion again *)

Section ConvertAgain.

Variable int_ok : string -> bool.
Variable fromstring : string -> result Element.
Variable tostring : Element -> result string.
Variables Tempo Note : Type.
Variable tempoToMidiEvents : Tempo -> result (list MidiEvent).
Variable noteToMidiEvents : Note -> result (list MidiEvent).
Variable parse_mei : string -> result (Score Tempo Note).
Variable write_midi : list MidiEvent -> result string.
Variable splitext_root : string -> string.




(** X21.  When the assembly of the track raises, whatever the exception,
    the output file is not opened: the result is [None], no file but the
    temporary one is written, the temporary file is removed, and the last
    line printed is the error of line 143. *)
Theorem convert_assembly_failure input_file output_file w d score e :
  files w input_file = Some d ->
  parse_mei (fst (remove_lyrics_from_mei int_ok fromstring tostring d))
  = Ok score ->
  assemble_track tempoToMidiEvents noteToMidiEvents score = Raise e ->
  let r :=
    convert_mei_to_midi int_ok fromstring tostring tempoToMidiEvents
      noteToMidiEvents parse_mei write_midi splitext_root
      input_file output_file w in
  fst r = None /\
  (forall q, q <> temp_file_of input_file -> files (snd r) q = files w q) /\
  files (snd r) (temp_file_of input_file) = None /\
  stdout (snd r) =
  stdout w ++
  [LogText ("Converting " ++ input_file ++ " to MIDI...")] ++
  snd (remove_lyrics_from_mei int_ok fromstring tostring d) ++
  [LogError "MIDI creation error" e].
Proof.
  intros Hd Hp Ha. cbv zeta.
  rewrite convert_cases. cbv zeta. rewrite Hd, Hp, Ha. simpl.
  repeat split.
  - intros q Hq. apply eqb_neq_false in Hq. now rewrite Hq.
  - now rewrite String.eqb_refl.
  - now rewrite <- !app_assoc.
Qed.

End ConvertAgain.


Lemma convert_assembly_failure_witness :
  let r :=
    convert_mei_to_midi py_int_ok sample_fromstring sample_tostring
      sample_tempo_events sample_note_fails sample_parse_bad_note
      sample_write_midi sample_splitext_root "in.mei" None
      sample_full_world in
  fst r = None /\
  (forall q, q <> "in.mei.temp.mei" ->
             files (snd r) q = files sample_full_world q) /\
  files (snd r) "in.mei.temp.mei" = None /\
  stdout (snd r) =
  [LogText "Converting in.mei to MIDI...";
   LogError "MIDI creation error" (OtherError "bad note")].
Proof.
  apply (convert_assembly_failure py_int_ok sample_fromstring
           sample_tostring string string sample_tempo_events
           sample_note_fails sample_parse_bad_note sample_write_midi
           sample_splitext_root "in.mei" None sample_full_world "<mei/>"
           sample_bad_note_score (OtherError "bad note")); reflexivity.
Defined.
